(** * python-chess [chess/engine.py]: a shallow embedding of the engine driver

    The development follows the source file top to bottom: the Python values
    the driver manipulates, the [Option] descriptor, the [Score] hierarchy,
    the case-insensitive option map, the UCI option setter and info parser,
    the XBoard time-control framing, and the command dispatch core of
    [EngineProtocol]. *)

From stdpp Require Import gmap strings list.
From Stdlib Require Import ZArith Lia Bool Ascii DecimalString DecimalZ.

Local Open Scope Z_scope.

(** * Python values *)

Module Py.

(** The dynamically typed values that reach the driver as option values,
    defaults and tuple components: [None], booleans, integers and strings. *)
Inductive pyval : Type :=
| PyNone
| PyBool (b : bool)
| PyInt (z : Z)
| PyStr (s : string).

#[global] Instance pyval_eq_dec : EqDecision pyval.
Proof. solve_decision. Defined.

(** Exceptions raised by the modelled code, with the message or key they carry. *)
Inductive exn : Type :=
| EngineError (msg : string)
| EngineTerminatedError (msg : string)
| ValueError (msg : string)
| TypeError (msg : string)
| KeyError (key : string)
| IndexError (msg : string)
| UnboundLocalError (var : string)
| AssertionError (msg : string)
| InvalidStateError (msg : string)
| CancelledError
| NotImplementedError.

#[global] Instance exn_eq_dec : EqDecision exn.
Proof. solve_decision. Defined.

(** The outcome of a call that may raise. *)
Inductive result (A : Type) : Type :=
| Ok (a : A)
| Raise (e : exn).
Arguments Ok {A} a.
Arguments Raise {A} e.

Definition bind {A B} (r : result A) (k : A -> result B) : result B :=
  match r with
  | Ok a => k a
  | Raise e => Raise e
  end.

(** [bool(v)]: Python truthiness. *)
Definition truthy (v : pyval) : bool :=
  match v with
  | PyNone => false
  | PyBool b => b
  | PyInt z => negb (z =? 0)
  | PyStr s => negb (String.eqb s "")
  end.

(** The integer a boolean stands for in numeric comparisons. *)
Definition Z_of_bool (b : bool) : Z := if b then 1 else 0.

(** [a == b]. Booleans are integers ([True == 1]); values of unrelated types
    are unequal. *)
Definition py_eq (a b : pyval) : bool :=
  match a, b with
  | PyNone, PyNone => true
  | PyBool x, PyBool y => Z_of_bool x =? Z_of_bool y
  | PyBool x, PyInt y => Z_of_bool x =? y
  | PyInt x, PyBool y => x =? Z_of_bool y
  | PyInt x, PyInt y => x =? y
  | PyStr x, PyStr y => String.eqb x y
  | _, _ => false
  end.

(** [a < b]: numeric on booleans and integers, lexicographic on strings, and a
    [TypeError] on every other pairing. *)
Definition py_lt (a b : pyval) : result bool :=
  match a, b with
  | PyBool x, PyBool y => Ok (Z_of_bool x <? Z_of_bool y)
  | PyBool x, PyInt y => Ok (Z_of_bool x <? y)
  | PyInt x, PyBool y => Ok (x <? Z_of_bool y)
  | PyInt x, PyInt y => Ok (x <? y)
  | PyStr x, PyStr y => Ok (String.ltb x y)
  | _, _ => Raise (TypeError "'<' not supported")
  end.

(** Comparison of tuples: the first pair of unequal components decides; when
    there is none, the shorter tuple is the smaller. *)
Fixpoint tuple_lt (s t : list pyval) : result bool :=
  match s, t with
  | [], [] => Ok false
  | [], _ :: _ => Ok true
  | _ :: _, [] => Ok false
  | x :: s', y :: t' => if py_eq x y then tuple_lt s' t' else py_lt x y
  end.

Fixpoint tuple_eq (s t : list pyval) : bool :=
  match s, t with
  | [], [] => true
  | x :: s', y :: t' => py_eq x y && tuple_eq s' t'
  | _, _ => false
  end.

(** ** Strings

    Python strings are modelled as [string]; the operations below are the
    [str] methods and builtins the driver calls, on ASCII text. *)

(** [c.isspace()] on ASCII. *)
Definition is_space (c : ascii) : bool :=
  match c with
  | "009" | "010" | "011" | "012" | "013" | "028" | "029" | "030" | "031" | " " => true
  | _ => false
  end%char.

Definition is_digit (c : ascii) : bool :=
  match c with
  | "0" | "1" | "2" | "3" | "4" | "5" | "6" | "7" | "8" | "9" => true
  | _ => false
  end%char.

(** [s.isdigit()] on ASCII, for a string that may be empty. *)
Fixpoint all_digits (s : string) : bool :=
  match s with
  | String c s' => is_digit c && all_digits s'
  | EmptyString => true
  end.

(** A string that does not start the way the numeral of an integer does. *)
Definition no_numeral (w : string) : bool :=
  match w with
  | String c _ => negb (Ascii.eqb c "-" || is_digit c)
  | EmptyString => true
  end.

(** [s.lstrip()], [s.rstrip()], [s.strip()]. *)
Fixpoint lstrip (s : string) : string :=
  match s with
  | String c s' => if is_space c then lstrip s' else s
  | EmptyString => EmptyString
  end.

Fixpoint rstrip (s : string) : string :=
  match s with
  | String c s' =>
      let r := rstrip s' in
      if is_space c && String.eqb r "" then "" else String c r
  | EmptyString => EmptyString
  end.

Definition strip (s : string) : string := lstrip (rstrip s).

(** [c in s] for a one-character [c]. *)
Fixpoint contains_char (c : ascii) (s : string) : bool :=
  match s with
  | String d s' => Ascii.eqb c d || contains_char c s'
  | EmptyString => false
  end.

(** [s.startswith(p)]. *)
Definition startswith (p s : string) : bool := String.prefix p s.

(** [s.split(sep)] for a one-character separator: never empty, and empty
    fields are kept. *)
Fixpoint split_on (sep : ascii) (s : string) : list string :=
  match s with
  | EmptyString => [EmptyString]
  | String c s' =>
      if Ascii.eqb c sep then EmptyString :: split_on sep s'
      else match split_on sep s' with
           | t :: ts => String c t :: ts
           | [] => [String c EmptyString]
           end
  end.

(** [sep.join(l)]. *)
Definition join (sep : string) (l : list string) : string := String.concat sep l.

(** [x in l] for a list of strings. *)
Definition str_in (x : string) (l : list string) : bool :=
  existsb (String.eqb x) l.

(** ** [str] and [int] *)

(** [str(z)] of an integer: its decimal numeral. *)
Definition str_of_Z (z : Z) : string := NilZero.string_of_int (Z.to_int z).

(** [str(v)]. *)
Definition py_str (v : pyval) : string :=
  match v with
  | PyNone => "None"
  | PyBool true => "True"
  | PyBool false => "False"
  | PyInt z => str_of_Z z
  | PyStr s => s
  end.

(** Underscores may separate the digits of a numeral, one at a time. The
    flag tells whether an underscore may come next. *)
Fixpoint drop_underscores (after_digit : bool) (s : string) : option string :=
  match s with
  | EmptyString => if after_digit then Some EmptyString else None
  | String c s' =>
      if Ascii.eqb c "_" then
        if after_digit then drop_underscores false s' else None
      else String c <$> drop_underscores true s'
  end.

Definition numeral (s : string) : option Z :=
  ds ← drop_underscores false s; Z.of_uint <$> NilZero.uint_of_string ds.

(** [int(s)] of a string: surrounding whitespace is dropped, a sign may
    come first, and the rest is a decimal numeral; [None] stands for the
    [ValueError]. *)
Definition int_of_str (s : string) : option Z :=
  match strip s with
  | String "-" r => Z.opp <$> numeral r
  | String "+" r => numeral r
  | t => numeral t
  end.

(** [int(v)]. *)
Definition py_int (v : pyval) : result Z :=
  match v with
  | PyNone => Raise (TypeError "int() argument must be a string or a number, not 'NoneType'")
  | PyBool b => Ok (Z_of_bool b)
  | PyInt z => Ok z
  | PyStr s =>
      match int_of_str s with
      | Some z => Ok z
      | None => Raise (ValueError "invalid literal for int() with base 10")
      end
  end.

(** ** Statements that may raise

    A Python call changes the objects it reaches and then returns or raises;
    what it changed before raising stays changed. *)
Definition M (S A : Type) : Type := S -> S * result A.

Definition ret {S A : Type} (a : A) : M S A := fun s => (s, Ok a).

Definition bindM {S A B : Type} (m : M S A) (k : A -> M S B) : M S B :=
  fun s => match m s with
           | (s', Ok a) => k a s'
           | (s', Raise e) => (s', Raise e)
           end.

Definition raise {S A : Type} (e : exn) : M S A := fun s => (s, Raise e).

Definition gets {S A : Type} (f : S -> A) : M S A := fun s => (s, Ok (f s)).

Definition modify {S : Type} (f : S -> S) : M S unit := fun s => (f s, Ok tt).

(** [assert cond]. *)
Definition assert_ {S : Type} (cond : bool) (msg : string) : M S unit :=
  if cond then ret tt else raise (AssertionError msg).

(** [try: body / except: handler]; the handler tells which exceptions it
    catches. *)
Definition try_except {S A : Type} (body : M S A)
    (handler : exn -> option (M S A)) : M S A :=
  fun s => match body s with
           | (s', Raise e) =>
               match handler e with
               | Some h => h s'
               | None => (s', Raise e)
               end
           | r => r
           end.

(** [try: body / finally: last]. *)
Definition try_finally {S A : Type} (body : M S A) (last : M S unit) : M S A :=
  fun s => match body s with
           | (s', r) =>
               match last s' with
               | (s'', Ok _) => (s'', r)
               | (s'', Raise e) => (s'', Raise e)
               end
           end.

(** The state a statement leaves, and how it ended. *)
Definition exec {S A : Type} (m : M S A) (s : S) : S := fst (m s).
Definition outcome {S A : Type} (m : M S A) (s : S) : result A := snd (m s).

End Py.

Declare Scope stmt_scope.
Delimit Scope stmt_scope with stmt.
Notation "x <- c1 ;; c2" := (Py.bindM c1 (fun x => c2))
  (at level 100, c1 at next level, c2 at level 200, right associativity)
  : stmt_scope.
Notation "c1 ;; c2" := (Py.bindM c1 (fun _ => c2))
  (at level 100, c2 at level 200, right associativity) : stmt_scope.

Import Py.

(** * Scores *)

Module Score.

(** [class Score]: [Cp(cp)], [Mate(moves)] and the singleton [MateGiven]. *)
Inductive Score : Type :=
| Cp (cp : Z)
| Mate (moves : Z)
| MateGiven.

#[global] Instance Score_eq_dec : EqDecision Score.
Proof. solve_decision. Defined.

(** [Score.mate()]. *)
Definition mate (self : Score) : option Z :=
  match self with
  | Cp _ => None
  | Mate moves => Some moves
  | MateGiven => Some 0
  end.

(** [Score.score(mate_score=...)]. *)
Definition score (self : Score) (mate_score : option Z) : option Z :=
  match self with
  | Cp cp => Some cp
  | Mate moves =>
      match mate_score with
      | None => None
      | Some m => if 0 <? moves then Some (m - moves) else Some (- m - moves)
      end
  | MateGiven => mate_score
  end.

(** [Score.is_mate()]: [self.mate() is not None]. *)
Definition is_mate (self : Score) : bool :=
  match mate self with Some _ => true | None => false end.

(** [__neg__] of the three classes. *)
Definition neg (self : Score) : Score :=
  match self with
  | Cp cp => Cp (- cp)
  | Mate moves => if moves =? 0 then MateGiven else Mate (- moves)
  | MateGiven => Mate 0
  end.

Definition of_option (o : option Z) : pyval :=
  match o with Some z => PyInt z | None => PyNone end.

(** [Score._score_tuple()]. The second component is
    [self.is_mate() and self.mate() > 0]; the fourth is [-(self.mate() or 0)]. *)
Definition _score_tuple (self : Score) : list pyval :=
  [ PyBool (match self with MateGiven => true | _ => false end);
    PyBool (match mate self with Some m => 0 <? m | None => false end);
    PyBool (negb (is_mate self));
    PyInt (- (match mate self with Some m => if m =? 0 then 0 else m | None => 0 end));
    of_option (score self None) ].

(** [Score.__eq__] and [Score.__lt__]: the comparison of the score tuples. *)
Definition __eq__ (self other : Score) : bool :=
  tuple_eq (_score_tuple self) (_score_tuple other).

Definition __lt__ (self other : Score) : result bool :=
  tuple_lt (_score_tuple self) (_score_tuple other).

(** [self < other] evaluates to [True]. *)
Definition lt (a b : Score) : Prop := __lt__ a b = Ok true.

(** The position of a score on the chain: lost mates, centipawns, won mates
    with mate given at their top; and the value that orders scores of one
    tier. *)
Definition tier (s : Score) : Z :=
  match s with
  | Mate n => if 0 <? n then 1 else -1
  | Cp _ => 0
  | MateGiven => 1
  end.

Definition within (s : Score) : Z :=
  match s with
  | Mate n => - n
  | Cp x => x
  | MateGiven => 0
  end.

Definition before (a b : Score) : Prop :=
  tier a < tier b \/ (tier a = tier b /\ within a < within b).

End Score.

(** * Options *)

Module Opt.

(** [class Option(namedtuple("Option", "name type default min max var"))].
    [min], [max] and [var] may be [None]. *)
Record Option : Type := mkOption {
  name : string;
  type : string;
  default : pyval;
  min : option Z;
  max : option Z;
  var : option (list string);
}.

(** [Option.parse(value)]. The messages of the errors are cut down to their
    constant text. *)
Definition parse (self : Option) (value : pyval) : result pyval :=
  if String.eqb (type self) "check" then
    (* value and value != "false" *)
    Ok (if truthy value then PyBool (negb (py_eq value (PyStr "false"))) else value)
  else if String.eqb (type self) "spin" then
    match py_int value with
    | Raise (ValueError _) => Raise (EngineError "expected integer for spin option")
    | Raise e => Raise e
    | Ok value =>
        if match min self with Some m => value <? m | None => false end then
          Raise (EngineError "expected value for option to be at least min")
        else if match max self with Some m => m <? value | None => false end then
          Raise (EngineError "expected value for option to be at most max")
        else Ok (PyInt value)
    end
  else if String.eqb (type self) "combo" then
    let value := py_str value in
    if negb (str_in value (match var self with Some l => l | None => [] end)) then
      (* the message joins self.var *)
      match var self with
      | Some _ => Raise (EngineError "invalid value for combo option")
      | None => Raise (TypeError "can only join an iterable")
      end
    else Ok (PyStr value)
  else if str_in (type self) ["button"; "reset"; "save"] then
    Ok PyNone
  else if str_in (type self) ["string"; "file"; "path"] then
    let value := py_str value in
    if contains_char "010" value || contains_char "013" value then
      Raise (EngineError "invalid line-break in string option")
    else Ok (PyStr value)
  else Raise (EngineError "unknown option type: {}").

(** The bounds a spin option declares; an undeclared bound does not
    constrain. *)
Definition in_bounds (o : Option) (z : Z) : Prop :=
  match min o with Some m => m <= z | None => True end /\
  match max o with Some m => z <= m | None => True end.

(** A string holds a line feed or a carriage return. *)
Definition has_line_break (s : string) : bool :=
  contains_char "010" s || contains_char "013" s.

(** [MANAGED_UCI_OPTIONS]. *)
Definition MANAGED_UCI_OPTIONS : list string :=
  ["uci_chess960"; "uci_variant"; "uci_analysemode"; "multipv"; "ponder"].

End Opt.

(** * Dictionaries *)

Module PyDict.

(** A Python [dict] keeps its keys in insertion order: an association list
    without repeated keys, the oldest key first. *)
Definition dict (K V : Type) : Type := list (K * V).

Section Dict.
Context {K V : Type} `{EqDecision K}.

(** [d.get(k)]; [None] where [d[k]] raises [KeyError]. *)
Fixpoint get (k : K) (d : dict K V) : option V :=
  match d with
  | [] => None
  | (k', v) :: d' => if decide (k = k') then Some v else get k d'
  end.

(** [d[k] = v]: a key already present keeps its place. *)
Fixpoint set (k : K) (v : V) (d : dict K V) : dict K V :=
  match d with
  | [] => [(k, v)]
  | (k', v') :: d' =>
      if decide (k = k') then (k, v) :: d' else (k', v') :: set k v d'
  end.

(** [del d[k]]; [None] for the [KeyError]. *)
Fixpoint del (k : K) (d : dict K V) : option (dict K V) :=
  match d with
  | [] => None
  | (k', v') :: d' =>
      if decide (k = k') then Some d' else cons (k', v') <$> del k d'
  end.

(** [k in d]. *)
Definition contains (k : K) (d : dict K V) : bool :=
  match get k d with Some _ => true | None => false end.

Definition keys (d : dict K V) : list K := map fst d.
Definition values (d : dict K V) : list V := map snd d.

(** No key occurs twice. *)
Definition wf (d : dict K V) : Prop := NoDup (keys d).

End Dict.

End PyDict.

(** * The UCI option map *)

Module UciOptionMap.

(** [c.lower()] and [s.lower()] on ASCII text. *)
Definition lower_char (c : ascii) : ascii :=
  let n := nat_of_ascii c in
  if (65 <=? n)%nat && (n <=? 90)%nat then ascii_of_nat (n + 32) else c.

Fixpoint lower (s : string) : string :=
  match s with
  | EmptyString => EmptyString
  | String c s' => String (lower_char c) (lower s')
  end.

(** [class UciOptionMap]: [self._store] maps a lowered key to the pair of the
    key as it was given and the value. *)
Record UciOptionMap (V : Type) : Type := mk {
  _store : PyDict.dict string (string * V);
}.
Arguments mk {V} _store.
Arguments _store {V} _.

Section Map.
Context {V : Type}.

Definition empty : UciOptionMap V := mk [].

(** [self._store[key.lower()] = (key, value)]. *)
Definition __setitem__ (self : UciOptionMap V) (key : string) (value : V)
  : UciOptionMap V :=
  mk (PyDict.set (lower key) (key, value) (_store self)).

(** [self._store[key.lower()][1]]. *)
Definition __getitem__ (self : UciOptionMap V) (key : string) : result V :=
  match PyDict.get (lower key) (_store self) with
  | Some (_, value) => Ok value
  | None => Raise (KeyError (lower key))
  end.

(** [del self._store[key.lower()]]. *)
Definition __delitem__ (self : UciOptionMap V) (key : string)
  : result (UciOptionMap V) :=
  match PyDict.del (lower key) (_store self) with
  | Some d => Ok (mk d)
  | None => Raise (KeyError (lower key))
  end.

(** [(casedkey for casedkey, mappedvalue in self._store.values())]. *)
Definition __iter__ (self : UciOptionMap V) : list string :=
  map fst (PyDict.values (_store self)).

Definition __len__ (self : UciOptionMap V) : nat := length (_store self).

(** [key in self], from [Mapping]: [self[key]] does not raise [KeyError]. *)
Definition __contains__ (self : UciOptionMap V) (key : string) : bool :=
  match __getitem__ self key with Ok _ => true | Raise _ => false end.

(** [self.items()], from [Mapping]: each key of the iteration with [self[key]]. *)
Definition items (self : UciOptionMap V) : list (string * result V) :=
  map (fun key => (key, __getitem__ self key)) (__iter__ self).

(** [self.update(data)] for an iterable of pairs, from [MutableMapping]. *)
Definition update (self : UciOptionMap V) (data : list (string * V))
  : UciOptionMap V :=
  fold_left (fun m kv => __setitem__ m (fst kv) (snd kv)) data self.

(** [UciOptionMap(data)]. *)
Definition __init__ (data : list (string * V)) : UciOptionMap V :=
  update empty data.

(** [type(self)(self._store.values())]. *)
Definition copy (self : UciOptionMap V) : UciOptionMap V :=
  __init__ (PyDict.values (_store self)).

(** [UciOptionMap.__eq__], for the equality [veq] of the values: every item
    of each map is in the other with an equal value. *)
Definition covers (veq : V -> V -> bool) (self other : UciOptionMap V) : bool :=
  forallb (fun kv =>
             match snd kv, __getitem__ other (fst kv) with
             | Ok value, Ok value' => veq value' value
             | _, _ => false
             end) (items self).

Definition __eq__ (veq : V -> V -> bool) (self other : UciOptionMap V) : bool :=
  covers veq self other && covers veq other self.

(** The maps the class builds: no lowered key twice, and every entry filed
    under the lowered form of its own key. *)
Definition wf (self : UciOptionMap V) : Prop :=
  PyDict.wf (_store self) /\
  Forall (fun e => fst e = lower (fst (snd e))) (_store self).

End Map.

End UciOptionMap.

(** * The UCI driver: options *)

Module Uci.
Import UciOptionMap.

(** The part of [UciProtocol] that option handling reads and writes:
    [self.options], [self.config], and the lines written to the engine. *)
Record UciProtocol : Type := mkUci {
  options : UciOptionMap Opt.Option;
  config : UciOptionMap pyval;
  sent : list string;
}.

(** [EngineProtocol.send_line(line)]. *)
Definition send_line (self : UciProtocol) (line : string) : UciProtocol :=
  mkUci (options self) (config self) (sent self ++ [line]).

(** [UciProtocol._getoption(option, default=None)]. [option in self.config]
    holds exactly when [self.config[option]] does not raise. *)
Definition _getoption (self : UciProtocol) (option : string) (default : pyval)
  : pyval :=
  match __getitem__ (config self) option with
  | Ok value => value
  | Raise _ =>
      match __getitem__ (options self) option with
      | Ok o => Opt.default o
      | Raise _ => default
      end
  end.

(** The line [_setoption] builds for a parsed value. *)
Definition setoption_line (name : string) (value : pyval) : string :=
  join " " (["setoption name"; name] ++
            match value with
            | PyBool false => ["value false"]
            | PyBool true => ["value true"]
            | PyNone => []
            | _ => ["value"; py_str value]
            end).

(** [UciProtocol._setoption(name, value)]. *)
Definition _setoption (self : UciProtocol) (name : string) (value : pyval)
  : result UciProtocol :=
  match __getitem__ (options self) name with
  | Raise _ => Raise (EngineError "engine does not support option")
  | Ok o =>
      bind (Opt.parse o value) (fun value =>
        if bool_decide (value = PyNone)
           || negb (py_eq value (_getoption self name PyNone)) then
          let self := send_line self (setoption_line name value) in
          Ok (mkUci (options self) (__setitem__ (config self) name value) (sent self))
        else Ok self)
  end.

End Uci.

(** * The chess rules and floating point, as the driver uses them *)

(** The [chess] module is outside the driver: boards and moves are abstract,
    and [None] stands for the [ValueError] of a move the board rejects. *)
Class ChessRules : Type := {
  Board : Type;
  Move : Type;
  Move_eq_dec :: EqDecision Move;
  (** [board.turn]; [chess.WHITE] is [True]. *)
  turn : Board -> bool;
  (** [board.copy(stack=False)]. *)
  copy_board : Board -> Board;
  (** [board.push_uci(s)]: the move and the board after it. *)
  push_uci : Board -> string -> option (Move * Board);
  (** [board.push_xboard(s)]. *)
  push_xboard : Board -> string -> option (Move * Board);
  (** [board.parse_uci(s)]. *)
  parse_uci : Board -> string -> option Move;
  (** [board.push(move)]. *)
  push : Board -> Move -> Board;
  (** [chess.Move.from_uci(s)]. *)
  from_uci : string -> option Move;
}.

(** Python floats, as far as the info parser makes them. *)
Class PyFloat : Type := {
  float : Type;
  (** [float(s)]; [None] for the [ValueError]. *)
  float_of_str : string -> option float;
  (** [n / d] for an integer [n] and a float constant given by its integer
      value [d]. *)
  true_div : Z -> Z -> float;
}.

(** * The UCI info parser *)

Module UciInfo.
Import Score.

(** [class Info(IntFlag)]. *)
Definition INFO_NONE : Z := 0.
Definition INFO_BASIC : Z := 1.
Definition INFO_SCORE : Z := 2.
Definition INFO_PV : Z := 4.
Definition INFO_REFUTATION : Z := 8.
Definition INFO_CURRLINE : Z := 16.
Definition INFO_ALL : Z :=
  Z.lor INFO_BASIC (Z.lor INFO_SCORE (Z.lor INFO_PV (Z.lor INFO_REFUTATION INFO_CURRLINE))).

(** [selector & flag], as a condition. *)
Definition selects (selector flag : Z) : bool := negb (Z.land selector flag =? 0).

(** [class PovScore]. *)
Record PovScore : Type := mkPovScore {
  relative : Score;
  pov_turn : bool;
}.

(** [PovScore.pov(color)]. *)
Definition pov (self : PovScore) (color : bool) : Score :=
  if Bool.eqb (pov_turn self) color then relative self else neg (relative self).

Section Parser.
Context `{ChessRules} `{PyFloat}.

(** The values an info dictionary holds. *)
Inductive info_value : Type :=
| IInt (z : Z)
| IFloat (f : float)
| IBool (b : bool)
| IStr (s : string)
| IScore (s : PovScore)
| IMove (m : Move)
| IMoves (pv : list Move)
| IRefutation (d : PyDict.dict Move (list Move))
| ICurrline (d : PyDict.dict Z (list Move)).

(** The local variables of [_parse_uci_info]. *)
Record locals : Type := mkLocals {
  info : gmap string info_value;
  board : option Board;
  pv : option (list Move);
  score_kind : option string;
  refutation_move : option Move;
  refuted_by : list Move;
  currline_cpunr : option Z;
  currline_moves : list Move;
  string_ : list string;
  current_parameter : option string;
}.

Definition set_info (l : locals) (i : gmap string info_value) : locals :=
  mkLocals i (board l) (pv l) (score_kind l) (refutation_move l) (refuted_by l)
           (currline_cpunr l) (currline_moves l) (string_ l) (current_parameter l).

(** [end_of_parameter()]. *)
Definition end_of_parameter (l : locals) : locals :=
  let i := info l in
  let i := match pv l with
           | Some moves => <["pv" := IMoves moves]> i
           | None => i
           end in
  let i := match refutation_move l with
           | Some m =>
               let d := match i !! "refutation" with
                        | Some (IRefutation d) => d
                        | _ => []
                        end in
               <["refutation" := IRefutation (PyDict.set m (refuted_by l) d)]> i
           | None => i
           end in
  let i := match currline_cpunr l with
           | Some n =>
               let d := match i !! "currline" with
                        | Some (ICurrline d) => d
                        | _ => []
                        end in
               <["currline" := ICurrline (PyDict.set n (currline_moves l) d)]> i
           | None => i
           end in
  set_info l i.

Definition keywords : list string :=
  ["depth"; "seldepth"; "time"; "nodes"; "pv"; "multipv"; "score"; "currmove";
   "currmovenumber"; "hashfull"; "nps"; "tbhits"; "cpuload"; "refutation";
   "currline"; "ebf"; "string"].

Definition int_parameters : list string :=
  ["depth"; "seldepth"; "nodes"; "multipv"; "currmovenumber"; "hashfull"; "nps";
   "tbhits"; "cpuload"].

Definition is_parameter (l : locals) (p : string) : bool :=
  match current_parameter l with Some c => String.eqb c p | None => false end.

(** The branch of the loop taken at a keyword. *)
Definition start_parameter (root_board : Board) (selector : Z) (l : locals)
    (token : string) : locals :=
  let l := end_of_parameter l in
  let fresh b p :=
    mkLocals (info l) b p None None [] None [] (string_ l) (Some token) in
  if String.eqb token "pv" && selects selector INFO_PV then
    fresh (Some (copy_board root_board)) (Some [])
  else if String.eqb token "refutation" && selects selector INFO_REFUTATION then
    fresh (Some (copy_board root_board)) None
  else if String.eqb token "currline" && selects selector INFO_CURRLINE then
    fresh (Some (copy_board root_board)) None
  else fresh None None.

(** One turn of [for token in arg.split(" ")]. A [ValueError] is logged and
    leaves the variables as they are. *)
Definition step (root_board : Board) (selector : Z) (l : locals)
    (token : string) : locals :=
  if is_parameter l "string" then
    mkLocals (info l) (board l) (pv l) (score_kind l) (refutation_move l)
             (refuted_by l) (currline_cpunr l) (currline_moves l)
             (string_ l ++ [token]) (current_parameter l)
  else if String.eqb token "" then l
  else if str_in token keywords then start_parameter root_board selector l token
  else if match current_parameter l with
          | Some c => str_in c int_parameters
          | None => false
          end then
    match current_parameter l, int_of_str token with
    | Some c, Some n => set_info l (<[c := IInt n]> (info l))
    | _, _ => l
    end
  else if is_parameter l "time" then
    match int_of_str token with
    | Some n => set_info l (<["time" := IFloat (true_div n 1000)]> (info l))
    | None => l
    end
  else if is_parameter l "pv" && bool_decide (is_Some (pv l)) then
    match pv l, board l with
    | Some moves, Some b =>
        match push_uci b token with
        | Some (m, b') =>
            mkLocals (info l) (Some b') (Some (moves ++ [m])) (score_kind l)
                     (refutation_move l) (refuted_by l) (currline_cpunr l)
                     (currline_moves l) (string_ l) (current_parameter l)
        | None => l
        end
    | _, _ => l
    end
  else if is_parameter l "score" && selects selector INFO_SCORE then
    if str_in token ["cp"; "mate"] then
      mkLocals (info l) (board l) (pv l) (Some token) (refutation_move l)
               (refuted_by l) (currline_cpunr l) (currline_moves l) (string_ l)
               (current_parameter l)
    else if String.eqb token "lowerbound" then
      set_info l (<["lowerbound" := IBool true]> (info l))
    else if String.eqb token "upperbound" then
      set_info l (<["upperbound" := IBool true]> (info l))
    else if bool_decide (score_kind l = Some "cp") then
      match int_of_str token with
      | Some n =>
          set_info l (<["score" := IScore (mkPovScore (Cp n) (turn root_board))]> (info l))
      | None => l
      end
    else if bool_decide (score_kind l = Some "mate") then
      match int_of_str token with
      | Some n =>
          set_info l (<["score" := IScore (mkPovScore (Mate n) (turn root_board))]> (info l))
      | None => l
      end
    else l
  else if is_parameter l "currmove" then
    match from_uci token with
    | Some m => set_info l (<["currmove" := IMove m]> (info l))
    | None => l
    end
  else if is_parameter l "refutation" && bool_decide (is_Some (board l)) then
    match board l with
    | Some b =>
        match push_uci b token with
        | Some (m, b') =>
            match refutation_move l with
            | None =>
                mkLocals (info l) (Some b') (pv l) (score_kind l) (Some m)
                         (refuted_by l) (currline_cpunr l) (currline_moves l)
                         (string_ l) (current_parameter l)
            | Some _ =>
                mkLocals (info l) (Some b') (pv l) (score_kind l)
                         (refutation_move l) (refuted_by l ++ [m])
                         (currline_cpunr l) (currline_moves l) (string_ l)
                         (current_parameter l)
            end
        | None => l
        end
    | None => l
    end
  else if is_parameter l "currline" && bool_decide (is_Some (board l)) then
    match board l with
    | Some b =>
        match currline_cpunr l with
        | None =>
            match int_of_str token with
            | Some n =>
                mkLocals (info l) (board l) (pv l) (score_kind l)
                         (refutation_move l) (refuted_by l) (Some n)
                         (currline_moves l) (string_ l) (current_parameter l)
            | None => l
            end
        | Some _ =>
            match push_uci b token with
            | Some (m, b') =>
                mkLocals (info l) (Some b') (pv l) (score_kind l)
                         (refutation_move l) (refuted_by l) (currline_cpunr l)
                         (currline_moves l ++ [m]) (string_ l)
                         (current_parameter l)
            | None => l
            end
        end
    | None => l
    end
  else if is_parameter l "ebf" then
    match float_of_str token with
    | Some f => set_info l (<["ebf" := IFloat f]> (info l))
    | None => l
    end
  else l.

Definition initial : locals :=
  mkLocals ∅ None None None None [] None [] [] None.

(** What follows the loop: the last parameter is closed, and a non-empty
    [string] list is joined. *)
Definition finish (l : locals) : gmap string info_value :=
  let l := end_of_parameter l in
  match string_ l with
  | [] => info l
  | _ :: _ => <["string" := IStr (join " " (string_ l))]> (info l)
  end.

(** [_parse_uci_info(arg, root_board, selector)]. *)
Definition _parse_uci_info (arg : string) (root_board : Board) (selector : Z)
  : gmap string info_value :=
  if selector =? 0 then ∅
  else finish (fold_left (step root_board selector) (split_on " " arg) initial).

(** [line.split(" ", 1)[1]] under [line.startswith("info ")], as the play
    and analysis commands of the UCI driver call the parser. *)
Definition info_of_line (line : string) (root_board : Board) (selector : Z)
  : option (gmap string info_value) :=
  if startswith "info " line then
    Some (_parse_uci_info (String.substring 5 (String.length line - 5) line)
                          root_board selector)
  else None.

(** A token that stands for a move: not empty, without a space, and not a
    keyword of the info line. *)
Definition move_token (t : string) : Prop :=
  t <> "" /\ contains_char " " t = false /\ str_in t keywords = false.

End Parser.

End UciInfo.

(** * A small instance of the chess rules

    Enough of a board to run the parsers: a position is the list of the moves
    played, White moves first, and every four-letter token is a legal move. *)

Module Toy.

Definition toy_push (b : list string) (s : string) : option (string * list string) :=
  if (String.length s =? 4)%nat then Some (s, b ++ [s]) else None.

#[export] Instance toy_chess : ChessRules := {|
  Board := list string;
  Move := string;
  turn b := Nat.even (length b);
  copy_board b := b;
  push_uci := toy_push;
  push_xboard := toy_push;
  parse_uci b s := fst <$> toy_push b s;
  push b m := b ++ [m];
  from_uci s := fst <$> toy_push [] s;
|}.

(** Floats as the quotient they were made from. *)
#[export] Instance toy_float : PyFloat := {|
  float := Z * Z;
  float_of_str s := (fun z => (z, 1)) <$> int_of_str s;
  true_div n d := (n, d);
|}.

End Toy.

(** * The command dispatch core *)

Module Dispatch.

Local Open Scope stmt_scope.

(** [class CommandState(enum.Enum)]. *)
Inductive CommandState : Type := New | Active | Cancelling | Done.

#[global] Instance CommandState_eq_dec : EqDecision CommandState.
Proof. solve_decision. Defined.

(** The state of an [asyncio.Future]: pending, cancelled, or finished with a
    result or an exception. *)
Inductive fstate (V : Type) : Type :=
| Pending
| Cancelled
| Finished (r : result V).
Arguments Pending {V}.
Arguments Cancelled {V}.
Arguments Finished {V} r.

(** [future.done()] and [future.cancelled()]. *)
Definition done {V : Type} (f : fstate V) : bool :=
  match f with Pending => false | _ => true end.

Definition cancelled {V : Type} (f : fstate V) : bool :=
  match f with Cancelled => true | _ => false end.

(** The two done-callbacks [communicate] registers on a promoted command:
    [lambda result: cmd._cancel(self) if cmd.result.cancelled() else None]
    and [previous_command_finished]. Commands are objects; a callback holds
    a reference to one, here its index in the store. *)
Inductive callback : Type :=
| cancel_if_cancelled (cmd : nat)
| previous_command_finished_cb.

(** The futures of a command. *)
Inductive which : Type := the_result | the_finished.

(** An [asyncio.Future] with the callbacks waiting for it. *)
Record Future (V : Type) : Type := mkFuture {
  f_state : fstate V;
  f_callbacks : list callback;
}.
Arguments mkFuture {V} _ _.
Arguments f_state {V} _.
Arguments f_callbacks {V} _.

Section Core.
(** [E]: the attributes of the protocol that the commands of a driver read
    and write ([options], [config], [board], ...); [V]: the results of
    commands other than [None]; [L]: the attributes a command keeps on
    itself. *)
Context {E V L : Type}.

(** What the methods of one command can reach: the command's own state and
    futures, its attributes, the engine, the lines they write, what they
    report to the loop's exception handler, and the futures they resolve,
    in order. *)
Record frame : Type := mkFrame {
  fr_state : CommandState;
  fr_result : fstate (option V);
  fr_finished : fstate unit;
  fr_local : L;
  fr_engine : E;
  fr_sent : list string;
  fr_reported : list exn;
  fr_resolved : list which;
}.

Definition hook (A : Type) : Type := M frame A.

(** [engine.send_line(line)]. *)
Definition send_line (line : string) : hook unit :=
  modify (fun f => mkFrame (fr_state f) (fr_result f) (fr_finished f)
                           (fr_local f) (fr_engine f) (fr_sent f ++ [line])
                           (fr_reported f) (fr_resolved f)).

(** [self.result.set_result(v)] and [self.result.set_exception(e)]: an
    [InvalidStateError] unless the future is pending. *)
Definition result_resolve (r : result (option V)) : hook unit :=
  fun f =>
    match fr_result f with
    | Pending =>
        (mkFrame (fr_state f) (Finished r) (fr_finished f) (fr_local f)
                 (fr_engine f) (fr_sent f) (fr_reported f)
                 (fr_resolved f ++ [the_result]), Ok tt)
    | _ => (f, Raise (InvalidStateError "invalid state"))
    end.

Definition result_set_result (v : option V) : hook unit := result_resolve (Ok v).
Definition result_set_exception (e : exn) : hook unit := result_resolve (Raise e).

(** [self.finished.set_result(None)]. *)
Definition finished_set_result : hook unit :=
  fun f =>
    match fr_finished f with
    | Pending =>
        (mkFrame (fr_state f) (fr_result f) (Finished (Ok tt)) (fr_local f)
                 (fr_engine f) (fr_sent f) (fr_reported f)
                 (fr_resolved f ++ [the_finished]), Ok tt)
    | _ => (f, Raise (InvalidStateError "invalid state"))
    end.

(** [self.loop.call_exception_handler({... "exception": exc ...})]. *)
Definition call_exception_handler (exc : exn) : hook unit :=
  modify (fun f => mkFrame (fr_state f) (fr_result f) (fr_finished f)
                           (fr_local f) (fr_engine f) (fr_sent f)
                           (fr_reported f ++ [exc]) (fr_resolved f)).

(** [self.x = v] for the attributes of the command, and the engine. *)
Definition set_local (l : L) : hook unit :=
  modify (fun f => mkFrame (fr_state f) (fr_result f) (fr_finished f) l
                           (fr_engine f) (fr_sent f) (fr_reported f)
                           (fr_resolved f)).

Definition set_engine (e : E) : hook unit :=
  modify (fun f => mkFrame (fr_state f) (fr_result f) (fr_finished f)
                           (fr_local f) e (fr_sent f) (fr_reported f)
                           (fr_resolved f)).

Definition running (st : CommandState) : bool :=
  bool_decide (st = Active) || bool_decide (st = Cancelling).

(** [BaseCommand._handle_exception(engine, exc)]. *)
Definition _handle_exception (exc : exn) : hook unit :=
  r <- gets fr_result;;
  (if negb (done r) then result_set_exception exc
   else call_exception_handler exc);;
  f <- gets fr_finished;;
  if negb (done f) then finished_set_result else ret tt.

(** [BaseCommand.set_finished()]. *)
Definition set_finished : hook unit :=
  st <- gets fr_state;;
  assert_ (running st) "self.state in [Active, Cancelling]";;
  r <- gets fr_result;;
  (if negb (done r) then result_set_result None else ret tt);;
  finished_set_result.

(** The methods a command class defines. *)
Record Hooks : Type := mkHooks {
  start : hook unit;
  cancel : hook unit;
  line_received : string -> hook unit;
  engine_terminated : exn -> hook unit;
}.

(** [class BaseCommand]: the methods a subclass does not override. *)
Definition BaseCommand : Hooks :=
  mkHooks (raise NotImplementedError) (ret tt) (fun _ => ret tt) (fun _ => ret tt).

(** A command object. *)
Record Command : Type := mkCommand {
  state : CommandState;
  result : Future (option V);
  finished : Future unit;
  local : L;
  hooks : Hooks;
}.

(** [class EngineProtocol]: the store of command objects, [self.command],
    [self.next_command], [self.returncode], the attributes of the driver,
    the loop's queue of ready callbacks and what was reported to its
    exception handler. [sent] lists the lines written to the transport, each
    with the command whose method wrote it; [started] lists the commands
    that were made [Active], in order. *)
Record EngineProtocol : Type := mkProtocol {
  commands : list Command;
  command : option nat;
  next_command : option nat;
  returncode : fstate Z;
  engine : E;
  sent : list (nat * string);
  reported : list exn;
  ready : list callback;
  started : list nat;
}.

Definition proto (A : Type) : Type := M EngineProtocol A.

Definition with_commands (cs : list Command) (s : EngineProtocol) : EngineProtocol :=
  mkProtocol cs (command s) (next_command s) (returncode s) (engine s) (sent s)
             (reported s) (ready s) (started s).

Definition with_current (c n : option nat) (s : EngineProtocol) : EngineProtocol :=
  mkProtocol (commands s) c n (returncode s) (engine s) (sent s) (reported s)
             (ready s) (started s).

Definition with_returncode (rc : fstate Z) (s : EngineProtocol) : EngineProtocol :=
  mkProtocol (commands s) (command s) (next_command s) rc (engine s) (sent s)
             (reported s) (ready s) (started s).

Definition with_ready (q : list callback) (s : EngineProtocol) : EngineProtocol :=
  mkProtocol (commands s) (command s) (next_command s) (returncode s) (engine s)
             (sent s) (reported s) q (started s).

Definition with_reported (r : list exn) (s : EngineProtocol) : EngineProtocol :=
  mkProtocol (commands s) (command s) (next_command s) (returncode s) (engine s)
             (sent s) r (ready s) (started s).

Definition with_started (l : list nat) (s : EngineProtocol) : EngineProtocol :=
  mkProtocol (commands s) (command s) (next_command s) (returncode s) (engine s)
             (sent s) (reported s) (ready s) l.

(** The object a reference points to. Every reference the driver holds
    points into the store; the error is for references it never makes. *)
Definition get_command (cmd : nat) : proto Command :=
  fun s => match commands s !! cmd with
           | Some c => (s, Ok c)
           | None => (s, Raise (KeyError "no such command"))
           end.

Definition put_command (cmd : nat) (c : Command) : proto unit :=
  modify (fun s => with_commands (<[cmd := c]> (commands s)) s).

(** [loop.call_soon(cb)] for each callback. *)
Definition call_soon (cbs : list callback) : proto unit :=
  modify (fun s => with_ready (ready s ++ cbs) s).

(** [cmd.result.cancel()] and [cmd.finished.cancel()]: a pending future
    becomes cancelled and its callbacks are scheduled. *)
Definition result_cancel (cmd : nat) : proto bool :=
  c <- get_command cmd;;
  match f_state (result c) with
  | Pending =>
      put_command cmd (mkCommand (state c) (mkFuture Cancelled []) (finished c)
                                 (local c) (hooks c));;
      call_soon (f_callbacks (result c));;
      ret true
  | _ => ret false
  end.

Definition finished_cancel (cmd : nat) : proto bool :=
  c <- get_command cmd;;
  match f_state (finished c) with
  | Pending =>
      put_command cmd (mkCommand (state c) (result c) (mkFuture Cancelled [])
                                 (local c) (hooks c));;
      call_soon (f_callbacks (finished c));;
      ret true
  | _ => ret false
  end.

(** [future.add_done_callback(cb)]: kept while the future is pending,
    scheduled at once when it is done. *)
Definition result_add_done_callback (cmd : nat) (cb : callback) : proto unit :=
  c <- get_command cmd;;
  match f_state (result c) with
  | Pending =>
      put_command cmd
        (mkCommand (state c)
                   (mkFuture Pending (f_callbacks (result c) ++ [cb]))
                   (finished c) (local c) (hooks c))
  | _ => call_soon [cb]
  end.

Definition finished_add_done_callback (cmd : nat) (cb : callback) : proto unit :=
  c <- get_command cmd;;
  match f_state (finished c) with
  | Pending =>
      put_command cmd
        (mkCommand (state c) (result c)
                   (mkFuture Pending (f_callbacks (finished c) ++ [cb]))
                   (local c) (hooks c))
  | _ => call_soon [cb]
  end.

Definition set_state (cmd : nat) (st : CommandState) : proto unit :=
  c <- get_command cmd;;
  put_command cmd (mkCommand st (result c) (finished c) (local c) (hooks c)).

(** The callbacks of the futures a method resolved, and the futures with
    those callbacks taken off. *)
Definition callbacks_of (c : Command) (w : which) : list callback :=
  match w with
  | the_result => f_callbacks (result c)
  | the_finished => f_callbacks (finished c)
  end.

Definition resolved (w : which) (ws : list which) : bool :=
  existsb (fun w' => match w, w' with
                     | the_result, the_result | the_finished, the_finished => true
                     | _, _ => false
                     end) ws.

(** A method of command [cmd] runs on the frame of that command; what it
    did is written back: the futures, the attributes, the engine, the lines
    sent, the reports, and the callbacks of the futures it resolved. *)
Definition run_hook {A : Type} (cmd : nat) (h : hook A) : proto A :=
  fun s =>
    match commands s !! cmd with
    | None => (s, Raise (KeyError "no such command"))
    | Some c =>
        let f := mkFrame (state c) (f_state (result c)) (f_state (finished c))
                         (local c) (engine s) [] [] [] in
        let (f', r) := h f in
        let c' :=
          mkCommand (state c)
            (mkFuture (fr_result f')
               (if resolved the_result (fr_resolved f') then []
                else f_callbacks (result c)))
            (mkFuture (fr_finished f')
               (if resolved the_finished (fr_resolved f') then []
                else f_callbacks (finished c)))
            (fr_local f') (hooks c) in
        (mkProtocol (<[cmd := c']> (commands s)) (command s) (next_command s)
                    (returncode s) (fr_engine f')
                    (sent s ++ map (pair cmd) (fr_sent f'))
                    (reported s ++ fr_reported f')
                    (ready s ++ concat (map (callbacks_of c) (fr_resolved f')))
                    (started s),
         r)
    end.

(** [BaseCommand._done()]. *)
Definition _done (cmd : nat) : proto unit :=
  c <- get_command cmd;;
  assert_ (negb (bool_decide (state c = Done))) "self.state != CommandState.Done";;
  set_state cmd Done.

(** [BaseCommand._start(engine)]: [except EngineError] also catches the
    subclass [EngineTerminatedError]. *)
Definition _start (cmd : nat) : proto unit :=
  c <- get_command cmd;;
  assert_ (bool_decide (state c = New)) "self.state == CommandState.New";;
  set_state cmd Active;;
  modify (fun s => with_started (started s ++ [cmd]) s);;
  try_except (run_hook cmd (start (hooks c)))
    (fun err => match err with
                | EngineError _ | EngineTerminatedError _ =>
                    Some (run_hook cmd (_handle_exception err))
                | _ => None
                end).

(** [BaseCommand._cancel(engine)]. *)
Definition _cancel (cmd : nat) : proto unit :=
  c <- get_command cmd;;
  assert_ (bool_decide (state c = Active)) "self.state == CommandState.Active";;
  set_state cmd Cancelling;;
  run_hook cmd (cancel (hooks c)).

(** [BaseCommand._line_received(engine, line)]. *)
Definition _line_received_command (cmd : nat) (line : string) : proto unit :=
  c <- get_command cmd;;
  assert_ (running (state c)) "self.state in [Active, Cancelling]";;
  run_hook cmd (line_received (hooks c) line).

(** The message of the error for an engine that died. *)
Definition died (code : Z) : exn :=
  EngineTerminatedError
    ("engine process died unexpectedly (exit code: " +:+ str_of_Z code +:+ ")").

Definition dead (code : Z) : exn :=
  EngineTerminatedError
    ("engine process dead (exit code: " +:+ str_of_Z code +:+ ")").

(** [BaseCommand._engine_terminated(engine, code)]. *)
Definition _engine_terminated (cmd : nat) (code : Z) : proto unit :=
  let exc := died code in
  run_hook cmd (_handle_exception exc);;
  c <- get_command cmd;;
  if running (state c) then run_hook cmd (engine_terminated (hooks c) exc)
  else ret tt.

(** [previous_command_finished(_)], the closure of [communicate]. *)
Definition previous_command_finished : proto unit :=
  cur <- gets command;;
  match cur with Some c => _done c | None => ret tt end;;
  nxt <- gets next_command;;
  modify (with_current nxt None);;
  match nxt with
  | Some cmd =>
      result_add_done_callback cmd (cancel_if_cancelled cmd);;
      finished_add_done_callback cmd previous_command_finished_cb;;
      _start cmd
  | None => ret tt
  end.

(** [command_factory(self.loop)]: a new command object, [BaseCommand.__init__]. *)
Definition new_command (h : Hooks) (l : L) : proto nat :=
  fun s =>
    (with_commands
       (commands s ++ [mkCommand New (mkFuture Pending []) (mkFuture Pending []) l h]) s,
     Ok (length (commands s))).

(** [EngineProtocol.communicate(command_factory)], up to the point where it
    waits for [command.result]; it returns the command whose result the
    caller then awaits. *)
Definition communicate (h : Hooks) (l : L) : proto nat :=
  cmd <- new_command h l;;
  rc <- gets returncode;;
  match rc with
  | Finished (Ok code) => raise (dead code)
  | Finished (Raise e) => raise e
  | Cancelled => raise CancelledError
  | Pending =>
      c <- get_command cmd;;
      assert_ (bool_decide (state c = New)) "command.state == CommandState.New";;
      nxt <- gets next_command;;
      match nxt with
      | Some n => result_cancel n;; finished_cancel n;; _done n
      | None => ret tt
      end;;
      modify (fun s => with_current (command s) (Some cmd) s);;
      cur <- gets command;;
      match cur with
      | None => previous_command_finished
      | Some running_cmd =>
          rc <- get_command running_cmd;;
          if negb (done (f_state (result rc))) then
            result_cancel running_cmd;; ret tt
          else if negb (cancelled (f_state (result rc))) then
            _cancel running_cmd
          else ret tt
      end;;
      ret cmd
  end.

(** [EngineProtocol.connection_lost(exc)], for the exit code [code] that
    [self.transport.get_returncode()] gives. *)
Definition connection_lost (code : Z) : proto unit :=
  cur <- gets command;;
  match cur with
  | Some c =>
      _engine_terminated c code;;
      modify (fun s => with_current None (next_command s) s)
  | None => ret tt
  end;;
  nxt <- gets next_command;;
  match nxt with
  | Some n =>
      _engine_terminated n code;;
      modify (fun s => with_current (command s) None s)
  | None => ret tt
  end;;
  rc <- gets returncode;;
  match rc with
  | Pending => modify (with_returncode (Finished (Ok code)))
  | _ => raise (InvalidStateError "invalid state")
  end.

(** [EngineProtocol._line_received(line)]; [self.line_received(line)] does
    nothing. *)
Definition _line_received (line : string) : proto unit :=
  cur <- gets command;;
  match cur with
  | Some c => _line_received_command c line
  | None => ret tt
  end.

(** The loop runs one callback. *)
Definition run_callback (cb : callback) : proto unit :=
  match cb with
  | cancel_if_cancelled cmd =>
      c <- get_command cmd;;
      if cancelled (f_state (result c)) then _cancel cmd else ret tt
  | previous_command_finished_cb => previous_command_finished
  end.

(** A call made from the loop: an exception it raises goes to the loop's
    exception handler. *)
Definition from_loop (m : proto unit) : proto unit :=
  try_except m (fun e => Some (modify (fun s => with_reported (reported s ++ [e]) s))).

Definition tick : proto unit :=
  q <- gets ready;;
  match q with
  | [] => ret tt
  | cb :: q' => modify (with_ready q');; from_loop (run_callback cb)
  end.

(** What happens to the driver: a caller submits a command, a caller gives
    up waiting and its task cancels the result it awaits, the loop runs a
    ready callback, the engine writes a line, the engine exits. *)
Inductive event : Type :=
| Communicate (h : Hooks) (l : L)
| CallerCancels (cmd : nat)
| Tick
| LineReceived (line : string)
| ConnectionLost (code : Z).

Definition step (s : EngineProtocol) (e : event) : EngineProtocol :=
  match e with
  | Communicate h l => exec (communicate h l) s
  | CallerCancels cmd => exec (result_cancel cmd) s
  | Tick => exec tick s
  | LineReceived line => exec (from_loop (_line_received line)) s
  | ConnectionLost code => exec (from_loop (connection_lost code)) s
  end.

Definition run (s : EngineProtocol) (es : list event) : EngineProtocol :=
  fold_left step es s.

(** [EngineProtocol.__init__]. *)
Definition init (e : E) : EngineProtocol :=
  mkProtocol [] None None Pending e [] [] [] [].

(** ** The queue discipline, stated *)

(** The number of requests in a sequence of events. *)
Fixpoint requests (es : list event) : nat :=
  match es with
  | [] => 0%nat
  | Communicate _ _ :: es' => S (requests es')
  | _ :: es' => requests es'
  end.

(** Command [b] is the current command after every event of [es]. *)
Fixpoint stays_current (b : nat) (s : EngineProtocol) (es : list event) : Prop :=
  match es with
  | [] => True
  | e :: es' => command (step s e) = Some b /\ stays_current b (step s e) es'
  end.

(** A driver at rest: no command is current or waiting, the engine has not
    exited, every command made so far is [Done], and the records name
    commands that exist. *)
Definition idle (s : EngineProtocol) : Prop :=
  command s = None /\ next_command s = None /\ returncode s = Pending /\
  Forall (fun c => state c = Done) (commands s) /\
  Forall (fun i => (i < length (commands s))%nat) (started s) /\
  Forall (fun p => (fst p < length (commands s))%nat) (sent s).

(** Command [i] was cancelled before it ran: it is [Done], both its futures
    are cancelled, it was never made [Active], and no line on the transport
    is its own. *)
Definition superseded (i : nat) (s : EngineProtocol) : Prop :=
  exists c, commands s !! i = Some c /\ state c = Done /\
            f_state (result c) = Cancelled /\ f_state (finished c) = Cancelled /\
            ~ In i (started s) /\ forall line, ~ In (i, line) (sent s).

(** During the overlap: [k] requests were made since the driver was at rest
    with [b] commands in its store, and the first of them, command [b], is
    still the current one. The last request waits as [next_command]; the
    requests between the first and the last were superseded. *)
Record overlap (b : nat) (st0 : list nat) (k : nat) (s : EngineProtocol) : Prop := {
  ov_k : (1 <= k)%nat;
  ov_length : length (commands s) = (b + k)%nat;
  ov_command : command s = Some b;
  ov_next : next_command s = if decide (k = 1%nat) then None else Some (b + k - 1)%nat;
  ov_returncode : returncode s = Pending;
  ov_started : started s = st0 ++ [b];
  ov_st0 : Forall (fun j => (j < b)%nat) st0;
  ov_first : exists c, commands s !! b = Some c /\ running (state c) = true;
  ov_old : forall j c, (j < b)%nat -> commands s !! j = Some c -> state c = Done;
  ov_mid : forall i, (b < i)%nat -> (i < b + k - 1)%nat -> superseded i s;
  ov_last : k <> 1%nat ->
            exists c, commands s !! (b + k - 1)%nat = Some c /\ state c = New /\
                      finished c = mkFuture Pending [] /\
                      f_callbacks (result c) = [] /\
                      (f_state (result c) = Pending \/ f_state (result c) = Cancelled);
  ov_sent : forall j line, In (j, line) (sent s) -> (j <= b)%nat;
}.

(** A statement keeps a property of the driver, however it ends. *)
Definition keeps {A : Type} (P : EngineProtocol -> Prop) (m : proto A) : Prop :=
  forall s, P s -> P (exec m s).

(** A statement takes the driver from [P] to [Q]. *)
Definition leads {A : Type} (P Q : EngineProtocol -> Prop) (m : proto A) : Prop :=
  forall s, P s -> Q (exec m s).

(** Which commands the driver points to, and whether the engine has exited. *)
Definition control (s : EngineProtocol) : option nat * option nat * fstate Z :=
  (command s, next_command s, returncode s).

Definition untouched (x : option nat * option nat * fstate Z)
    (s : EngineProtocol) : Prop := control s = x.

(** What the statements run for command [n] leave alone: which commands the
    driver points to, the other commands, and the lines of the other
    commands. Command [n] is in state [st], and [stl] lists the commands made
    [Active]. *)
Definition alone (n : nat) (st : CommandState) (stl : list nat)
    (base s : EngineProtocol) : Prop :=
  control s = control base /\ started s = stl /\
  length (commands s) = length (commands base) /\
  (forall i, i <> n -> commands s !! i = commands base !! i) /\
  (exists c, commands s !! n = Some c /\ state c = st) /\
  (forall i line, In (i, line) (sent s) -> In (i, line) (sent base) \/ i = n).


End Core.

Arguments frame : clear implicits.
Arguments hook : clear implicits.
Arguments Hooks : clear implicits.
Arguments Command : clear implicits.
Arguments EngineProtocol : clear implicits.
Arguments event : clear implicits.

End Dispatch.

(** * Properties *)

(** ** The order on scores *)

Module ScoreFacts.
Import Score.

Ltac score_cases :=
  repeat match goal with
    | |- context [0 <? ?k] => destruct (Z.ltb_spec 0 k)
    | |- context [?k =? 0] => destruct (Z.eqb_spec k 0)
    | |- context [?j =? ?k] => destruct (Z.eqb_spec j k)
    | |- context [?j <? ?k] => destruct (Z.ltb_spec j k)
    end; unfold Z_of_bool in *; cbn in *.

(** The tuple comparison never meets its [None] against an integer: it
    always returns, and it returns the order of the chain. *)
Lemma lt_before (a b : Score) : __lt__ a b = Ok (bool_decide (before a b)).
Proof.
  destruct a as [x|m|], b as [y|n|]; unfold __lt__, before; cbn;
    score_cases; try lia; f_equal; symmetry;
    first [ apply bool_decide_eq_true; lia | apply bool_decide_eq_false; lia ].
Qed.

Lemma lt_iff_before (a b : Score) : lt a b <-> before a b.
Proof.
  unfold lt. rewrite lt_before. split.
  - intros H. injection H as H. by apply bool_decide_eq_true in H.
  - intros H. f_equal. by apply bool_decide_eq_true.
Qed.

Lemma eq_iff (a b : Score) : __eq__ a b = true <-> a = b.
Proof.
  split.
  - destruct a as [x|m|], b as [y|n|]; unfold __eq__; cbn;
      score_cases; intros; try discriminate; try lia; f_equal; lia.
  - intros ->. destruct b as [y|n|]; unfold __eq__; cbn;
      score_cases; try reflexivity; lia.
Qed.

Lemma tier_neg (a : Score) : tier (neg a) = - tier a.
Proof.
  destruct a as [x|m|]; cbn; try reflexivity.
  destruct (Z.eqb_spec m 0); cbn.
  - subst. reflexivity.
  - destruct (Z.ltb_spec 0 m), (Z.ltb_spec 0 (- m)); lia.
Qed.

Lemma within_neg (a : Score) : within (neg a) = - within a.
Proof.
  destruct a as [x|m|]; cbn; try reflexivity.
  destruct (Z.eqb_spec m 0); cbn; lia.
Qed.

Lemma tier_within_inj (a b : Score) :
  tier a = tier b -> within a = within b -> a = b.
Proof.
  destruct a as [x|m|], b as [y|n|]; cbn; score_cases; intros;
    try lia; try reflexivity; f_equal; lia.
Qed.

Lemma lt_irrefl (a : Score) : ~ lt a a.
Proof. rewrite lt_iff_before. unfold before. lia. Qed.

Lemma lt_trans (a b c : Score) : lt a b -> lt b c -> lt a c.
Proof. rewrite !lt_iff_before. unfold before. lia. Qed.

Lemma lt_total (a b : Score) : lt a b \/ a = b \/ lt b a.
Proof.
  rewrite !lt_iff_before.
  destruct (Z.lt_trichotomy (tier a) (tier b)) as [H|[H|H]];
    [left; left; exact H | | right; right; left; exact H].
  destruct (Z.lt_trichotomy (within a) (within b)) as [G|[G|G]].
  - left. right. split; assumption.
  - right. left. by apply tier_within_inj.
  - right. right. right. split; [symmetry|]; assumption.
Qed.

Lemma lt_neg (a b : Score) : lt a b <-> lt (neg b) (neg a).
Proof.
  rewrite !lt_iff_before. unfold before.
  rewrite !tier_neg, !within_neg. lia.
Qed.

(** C3. The comparison of scores always returns; [<] is a strict total order
    whose equality is [__eq__]; it agrees with negation ([a < b] iff
    [-b < -a]); and it follows the chain
    Mate(-0) < Mate(-1) < ... < Cp(x) < Cp(y) (x < y) < ... < Mate(+n) < ... <
    Mate(+1) < MateGiven. *)
Theorem score_order_total_and_negation :
  (forall a b : Score, exists r, __lt__ a b = Ok r) /\
  (forall a : Score, ~ lt a a) /\
  (forall a b c : Score, lt a b -> lt b c -> lt a c) /\
  (forall a b : Score, lt a b \/ a = b \/ lt b a) /\
  (forall a b : Score, __eq__ a b = true <-> a = b) /\
  (forall a b : Score, lt a b <-> lt (neg b) (neg a)) /\
  (forall n : Z, 0 <= n -> lt (Mate (- n)) (Mate (- (n + 1)))) /\
  (forall n x : Z, 0 <= n -> lt (Mate (- n)) (Cp x)) /\
  (forall x y : Z, lt (Cp x) (Cp y) <-> x < y) /\
  (forall n x : Z, 0 < n -> lt (Cp x) (Mate n)) /\
  (forall m n : Z, 0 < m -> 0 < n -> (lt (Mate m) (Mate n) <-> n < m)) /\
  (forall n : Z, lt (Mate n) MateGiven) /\
  (forall x : Z, lt (Mate 0) (Cp x) /\ lt (Cp x) MateGiven).
Proof.
  repeat apply conj.
  - intros a b. rewrite lt_before. eauto.
  - apply lt_irrefl.
  - apply lt_trans.
  - apply lt_total.
  - apply eq_iff.
  - apply lt_neg.
  - intros n Hn. apply lt_iff_before. unfold before. cbn.
    destruct (Z.ltb_spec 0 (- n)), (Z.ltb_spec 0 (- (n + 1))); lia.
  - intros n x Hn. apply lt_iff_before. unfold before. cbn.
    destruct (Z.ltb_spec 0 (- n)); lia.
  - intros x y. rewrite lt_iff_before. unfold before. cbn. lia.
  - intros n x Hn. apply lt_iff_before. unfold before. cbn.
    destruct (Z.ltb_spec 0 n); lia.
  - intros m n Hm Hn. rewrite lt_iff_before. unfold before. cbn.
    destruct (Z.ltb_spec 0 m), (Z.ltb_spec 0 n); lia.
  - intros n. apply lt_iff_before. unfold before. cbn.
    destruct (Z.ltb_spec 0 n); lia.
  - intros x. split; apply lt_iff_before; unfold before; cbn; lia.
Qed.

End ScoreFacts.

(** ** Option parsing *)

Module OptFacts.
Import Opt.

Lemma str_in_In (x : string) (l : list string) : str_in x l = true <-> In x l.
Proof.
  unfold str_in. rewrite existsb_exists. split.
  - intros (y & Hy & E). apply String.eqb_eq in E. by subst.
  - intros H. exists x. split; [exact H | apply String.eqb_refl].
Qed.

Lemma parse_check (o : Option) (v : pyval) :
  type o = "check" ->
  parse o v = Ok (if truthy v then PyBool (negb (py_eq v (PyStr "false"))) else v).
Proof. intros H. unfold parse. rewrite H. reflexivity. Qed.

Lemma parse_spin (o : Option) (v : pyval) (z : Z) :
  type o = "spin" -> py_int v = Ok z ->
  (in_bounds o z -> parse o v = Ok (PyInt z)) /\
  (~ in_bounds o z -> exists msg, parse o v = Raise (EngineError msg)).
Proof.
  intros H Hz. unfold parse, in_bounds. rewrite H, Hz. cbn.
  destruct (min o) as [lo|], (max o) as [hi|];
    repeat match goal with
    | |- context [?j <? ?k] => destruct (Z.ltb_spec j k)
    end; split; intros; try lia; try reflexivity; eauto.
Qed.

Lemma parse_spin_not_int (o : Option) (v : pyval) (msg : string) :
  type o = "spin" -> py_int v = Raise (ValueError msg) ->
  exists msg', parse o v = Raise (EngineError msg').
Proof. intros H Hz. unfold parse. rewrite H, Hz. cbn. eauto. Qed.

Lemma py_int_cases (v : pyval) :
  v = PyNone \/ (exists z, py_int v = Ok z) \/ (exists msg, py_int v = Raise (ValueError msg)).
Proof.
  destruct v as [|b|z|s]; cbn; eauto.
  destruct (int_of_str s); eauto.
Qed.

Lemma parse_spin_ok (o : Option) (v r : pyval) :
  type o = "spin" -> parse o v = Ok r ->
  exists z, py_int v = Ok z /\ in_bounds o z /\ r = PyInt z.
Proof.
  intros H. unfold parse, in_bounds. rewrite H. cbn.
  destruct (py_int v) as [z|e]; [|destruct e; discriminate].
  destruct (min o) as [lo|], (max o) as [hi|];
    repeat match goal with
    | |- context [?j <? ?k] => destruct (Z.ltb_spec j k)
    end; intros E; try discriminate; injection E as <-;
    exists z; repeat split; trivial; lia.
Qed.

Lemma parse_combo (o : Option) (v : pyval) :
  type o = "combo" ->
  match var o with
  | Some l =>
      if str_in (py_str v) l then parse o v = Ok (PyStr (py_str v))
      else exists msg, parse o v = Raise (EngineError msg)
  | None => exists e, parse o v = Raise e
  end.
Proof.
  intros H. unfold parse. rewrite H. cbn.
  destruct (var o) as [l|]; cbn; [destruct (str_in (py_str v) l)|]; cbn; eauto.
Qed.

Lemma parse_button (o : Option) (v : pyval) :
  In (type o) ["button"; "reset"; "save"] -> parse o v = Ok PyNone.
Proof.
  intros H. unfold parse. cbn in H.
  destruct H as [<-|[<-|[<-|[]]]]; reflexivity.
Qed.

Lemma parse_string (o : Option) (v : pyval) :
  In (type o) ["string"; "file"; "path"] ->
  if has_line_break (py_str v)
  then exists msg, parse o v = Raise (EngineError msg)
  else parse o v = Ok (PyStr (py_str v)).
Proof.
  intros H. unfold parse, has_line_break. cbn in H.
  destruct H as [<-|[<-|[<-|[]]]]; cbn;
    destruct (contains_char "010" (py_str v) || contains_char "013" (py_str v)); eauto.
Qed.


(** C7 (as the code has it). Postconditions of [Option.parse] by type.
    check: a truthy raw value other than "false" parses to [True], "false"
    parses to [False], and a falsy raw value is returned as it is (falsy);
    spin, for a raw value other than [None]: parse succeeds exactly when
    [int(value)] is defined and within the declared bounds, with that integer,
    and fails with an engine-error otherwise; combo: parse succeeds exactly on
    the members of [var]; button, reset, save: parse returns [None]; string,
    file, path: parse fails with an engine-error exactly when the string holds
    a line break, and returns the string otherwise. *)
Theorem parse_postconditions (o : Option) (v : pyval) :
  (type o = "check" ->
     exists r, parse o v = Ok r /\
       (truthy v = true -> v <> PyStr "false" -> r = PyBool true) /\
       (v = PyStr "false" -> r = PyBool false) /\
       (truthy v = false -> r = v /\ truthy r = false)) /\
  (type o = "spin" -> v <> PyNone ->
     (forall r, parse o v = Ok r <->
        exists z, py_int v = Ok z /\ in_bounds o z /\ r = PyInt z) /\
     ((forall z, py_int v = Ok z -> ~ in_bounds o z) ->
        exists msg, parse o v = Raise (EngineError msg))) /\
  (type o = "combo" ->
     forall r, parse o v = Ok r <->
        exists l, var o = Some l /\ In (py_str v) l /\ r = PyStr (py_str v)) /\
  (In (type o) ["button"; "reset"; "save"] -> parse o v = Ok PyNone) /\
  (In (type o) ["string"; "file"; "path"] ->
     (has_line_break (py_str v) = true <->
        exists msg, parse o v = Raise (EngineError msg)) /\
     (has_line_break (py_str v) = false -> parse o v = Ok (PyStr (py_str v)))).
Proof.
  repeat apply conj.
  - intros H. rewrite (parse_check o v H). eexists. split; [reflexivity|].
    repeat apply conj.
    + intros -> Hne. f_equal.
      destruct v as [|b|z|s]; cbn; try reflexivity.
      destruct (String.eqb_spec s "false"); [congruence | reflexivity].
    + intros ->. reflexivity.
    + intros Hf. rewrite Hf. by split.
  - intros H Hv. split.
    + intros r. split.
      * apply parse_spin_ok, H.
      * intros (z & Hz & Hb & ->). by apply (parse_spin o v z H Hz).
    + intros Hout.
      destruct (py_int_cases v) as [?|[[z Hz]|[msg Hm]]]; [done| |].
      * apply (parse_spin o v z H Hz), Hout, Hz.
      * apply (parse_spin_not_int o v msg H Hm).
  - intros H r. pose proof (parse_combo o v H) as P.
    destruct (var o) as [l|].
    + destruct (str_in (py_str v) l) eqn:E.
      * rewrite P. split.
        -- intros [= <-]. exists l. by rewrite <- str_in_In.
        -- by intros (l' & _ & _ & ->).
      * destruct P as [msg ->]. split; [done|].
        intros (l' & [= <-] & Hin & _). apply str_in_In in Hin. congruence.
    + destruct P as [e ->]. split; [done|]. by intros (l & ? & _).
  - apply parse_button.
  - intros H. pose proof (parse_string o v H) as P.
    destruct (has_line_break (py_str v)); split.
    + split; [by intros _ | done].
    + done.
    + split; [done|]. intros [msg E]. congruence.
    + by intros _.
Qed.

(** The postconditions at work on a spin option with bounds 1..1024. *)
Lemma parse_postconditions_witness :
  Opt.parse (mkOption "Hash" "spin" (PyInt 16) (Some 1) (Some 1024) None)
    (PyStr "256") = Ok (PyInt 256).
Proof.
  apply (proj1 (proj1 (proj2 (parse_postconditions
    (mkOption "Hash" "spin" (PyInt 16) (Some 1) (Some 1024) None) (PyStr "256")))
    eq_refl ltac:(discriminate)) (PyInt 256)).
  exists 256. repeat split; cbn; lia.
Defined.

(** C7 as worded fails twice: an empty raw value of a check option is not
    "false", yet it parses to itself, which is falsy; and a spin option given
    [None] fails with a [TypeError], not with an engine-error. *)
Lemma parse_postconditions_as_worded_fail :
  ~ (forall (o : Option) (v : pyval), type o = "check" -> v <> PyStr "false" ->
       exists r, parse o v = Ok r /\ truthy r = true) /\
  ~ (forall (o : Option) (v : pyval), type o = "spin" ->
       (exists r, parse o v = Ok r) \/ (exists msg, parse o v = Raise (EngineError msg))).
Proof.
  split.
  - intros H.
    destruct (H (mkOption "Ponder" "check" PyNone None None None) (PyStr "")
                eq_refl ltac:(discriminate)) as (r & E & T).
    cbn in E. injection E as <-. discriminate T.
  - intros H.
    destruct (H (mkOption "Hash" "spin" PyNone None None None) PyNone eq_refl)
      as [[r E]|[msg E]]; discriminate E.
Qed.

(** C9. Parsing is idempotent: a value [Option.parse] returned parses to
    itself. *)
Theorem parse_idempotent (o : Option) (v r : pyval) :
  parse o v = Ok r -> parse o r = Ok r.
Proof.
  unfold parse.
  destruct (String.eqb (type o) "check").
  { intros [= <-]. destruct (truthy v) eqn:T.
    - cbn. by destruct (negb (py_eq v (PyStr "false"))).
    - by rewrite T. }
  destruct (String.eqb (type o) "spin").
  { destruct (py_int v) as [z|e]; [|destruct e; discriminate].
    cbn.
    destruct (match min o with Some m => z <? m | None => false end) eqn:Elo; [discriminate|].
    destruct (match max o with Some m => m <? z | None => false end) eqn:Ehi; [discriminate|].
    intros [= <-]. cbn. by rewrite Elo, Ehi. }
  destruct (String.eqb (type o) "combo").
  { cbn. destruct (str_in (py_str v) _) eqn:E; cbn.
    - intros [= <-]. cbn. by rewrite E.
    - destruct (var o); discriminate. }
  destruct (str_in (type o) ["button"; "reset"; "save"]).
  { by intros [= <-]. }
  destruct (str_in (type o) ["string"; "file"; "path"]).
  { cbn. destruct (contains_char "010" (py_str v) || contains_char "013" (py_str v)) eqn:E.
    - discriminate.
    - intros [= <-]. cbn. by rewrite E. }
  discriminate.
Qed.

Lemma parse_idempotent_witness :
  parse (mkOption "Hash" "spin" (PyInt 16) (Some 1) (Some 1024) None) (PyInt 256)
  = Ok (PyInt 256).
Proof.
  apply (parse_idempotent
           (mkOption "Hash" "spin" (PyInt 16) (Some 1) (Some 1024) None)
           (PyStr " 256 ") (PyInt 256)).
  vm_compute. reflexivity.
Defined.

End OptFacts.

(** ** Dictionaries and the UCI option map *)

Module PyDictFacts.
Import PyDict.

Section Facts.
Context {K V : Type} `{EqDecision K}.
Implicit Types (d : dict K V) (k : K) (v : V).

Lemma get_set_eq k v d : get k (set k v d) = Some v.
Proof.
  induction d as [|[k' v'] d IH]; cbn.
  - by rewrite decide_True.
  - destruct (decide (k = k')) as [->|Hne]; cbn.
    + by rewrite decide_True.
    + by rewrite decide_False.
Qed.

Lemma get_set_ne k k' v d : k <> k' -> get k' (set k v d) = get k' d.
Proof.
  intros Hne. induction d as [|[k2 v2] d IH]; cbn.
  - by rewrite decide_False.
  - destruct (decide (k = k2)) as [->|Hk]; cbn.
    + by rewrite !decide_False.
    + by rewrite IH.
Qed.

Lemma get_None_keys k d : get k d = None <-> ~ In k (keys d).
Proof.
  induction d as [|[k' v'] d IH]; cbn.
  - tauto.
  - destruct (decide (k = k')) as [->|Hne].
    + split; [done | intros Hn; exfalso; apply Hn; by left].
    + rewrite IH. split.
      * intros Hn [E|Hin]; [congruence | tauto].
      * intros Hn Hin. apply Hn. by right.
Qed.

Lemma set_fresh k v d : get k d = None -> set k v d = d ++ [(k, v)].
Proof.
  induction d as [|[k' v'] d IH]; cbn; [done|].
  destruct (decide (k = k')); [done|]. intros Hn. by rewrite IH.
Qed.

Lemma keys_set k v d :
  keys (set k v d) = if contains k d then keys d else keys d ++ [k].
Proof.
  unfold keys, contains. induction d as [|[k' v'] d IH]; cbn; [done|].
  destruct (decide (k = k')) as [->|Hne]; cbn; [done|].
  rewrite IH. by destruct (get k d).
Qed.

Lemma wf_set k v d : wf d -> wf (set k v d).
Proof.
  unfold wf. rewrite keys_set. unfold contains.
  destruct (get k d) eqn:E; [done|].
  intros Hd. apply NoDup_app. repeat split; [done| |apply NoDup_singleton].
  intros x Hx ->%list_elem_of_singleton.
  apply get_None_keys in E. apply E. by apply list_elem_of_In.
Qed.

Lemma wf_del k d d' : wf d -> del k d = Some d' -> wf d'.
Proof.
  unfold wf. revert d'. induction d as [|[k' v'] d IH]; cbn; [done|].
  intros d' Hd. apply NoDup_cons in Hd as [Hk Hd].
  destruct (decide (k = k')) as [->|Hne].
  - by intros [= <-].
  - destruct (del k d) as [d2|] eqn:E; [|done]. cbn. intros [= <-]. cbn.
    apply NoDup_cons. split; [|by apply IH].
    intros Hin. apply Hk. clear -Hin E.
    revert d2 E Hin. induction d as [|[k3 v3] d IH]; cbn; [done|].
    intros d2. destruct (decide (k = k3)) as [->|Hne].
    + intros [= <-] Hin. by right.
    + destruct (del k d) as [d3|]; [|done]. cbn. intros [= <-]. cbn.
      rewrite !elem_of_cons. intros [->|Hin]; [by left|right; by eapply IH].
Qed.

Lemma get_In k v d : get k d = Some v -> In (k, v) d.
Proof.
  induction d as [|[k' v'] d IH]; cbn; [done|].
  destruct (decide (k = k')) as [->|Hne].
  - intros [= ->]. by left.
  - intros Hg. right. by apply IH.
Qed.

Lemma In_get k v d : wf d -> In (k, v) d -> get k d = Some v.
Proof.
  unfold wf. induction d as [|[k' v'] d IH]; cbn; [done|].
  intros Hd. apply NoDup_cons in Hd as [Hk Hd].
  intros [[= -> ->]|Hin].
  - by rewrite decide_True.
  - destruct (decide (k = k')) as [->|Hne]; [|by apply IH].
    exfalso. apply Hk. apply list_elem_of_In.
    change k' with (fst (k', v)). by apply in_map.
Qed.

End Facts.
End PyDictFacts.

Module UciOptionMapFacts.
Import UciOptionMap.

Section Facts.
Context {V : Type}.
Implicit Types (m : UciOptionMap V) (k : string) (v : V).

Lemma wf_empty : wf (@empty V).
Proof. split; [apply NoDup_nil_2 | apply Forall_nil_2]. Qed.

Lemma Forall_set (P : string * (string * V) -> Prop) key e d :
  P (key, e) -> Forall P d -> Forall P (PyDict.set key e d).
Proof.
  intros He. induction 1 as [|[k' e'] d Hx Hd IH]; cbn.
  - by apply Forall_cons.
  - destruct (decide (key = k')); apply Forall_cons; auto.
Qed.

Lemma wf_setitem m k v : wf m -> wf (__setitem__ m k v).
Proof.
  intros [Hd Hl]. split; cbn.
  - by apply PyDictFacts.wf_set.
  - by apply Forall_set.
Qed.

Lemma wf_update m data : wf m -> wf (update m data).
Proof.
  unfold update. revert m. induction data as [|[k v] data IH]; cbn; [done|].
  intros m Hm. by apply IH, wf_setitem.
Qed.

Lemma getitem_setitem m k k' v :
  lower k' = lower k -> __getitem__ (__setitem__ m k v) k' = Ok v.
Proof.
  intros E. unfold __getitem__, __setitem__. cbn.
  by rewrite E, PyDictFacts.get_set_eq.
Qed.

Lemma getitem_setitem_ne m k k' v :
  lower k' <> lower k -> __getitem__ (__setitem__ m k v) k' = __getitem__ m k'.
Proof.
  intros E. unfold __getitem__, __setitem__. cbn.
  by rewrite PyDictFacts.get_set_ne.
Qed.

(** What the store holds under the lowered form of [k] decides both the
    lookup and the casing the iteration yields. *)
Lemma stored_lookup m k k' v :
  PyDict.get (lower k) (_store m) = Some (k, v) ->
  lower k' = lower k -> __getitem__ m k' = Ok v.
Proof. intros Hg E. unfold __getitem__. by rewrite E, Hg. Qed.

Lemma stored_in_iter m k v :
  PyDict.get (lower k) (_store m) = Some (k, v) -> In k (__iter__ m).
Proof.
  intros Hg%PyDictFacts.get_In. unfold __iter__, PyDict.values.
  rewrite map_map. apply in_map_iff. by exists (lower k, (k, v)).
Qed.

Lemma iter_entry m k' :
  In k' (__iter__ m) -> exists key v', In (key, (k', v')) (_store m).
Proof.
  unfold __iter__, PyDict.values. rewrite map_map.
  intros ([key [ck v']] & E & Hin)%in_map_iff. cbn in E. subst ck. eauto.
Qed.

Lemma stored_casing m k k' v :
  wf m -> PyDict.get (lower k) (_store m) = Some (k, v) ->
  In k' (__iter__ m) -> lower k' = lower k -> k' = k.
Proof.
  intros [Hd Hl] Hg (key & v' & Hin)%iter_entry E.
  assert (key = lower k') as ->.
  { rewrite Forall_forall in Hl. apply (Hl _ (proj2 (list_elem_of_In _ _) Hin)). }
  rewrite E in Hin. apply (PyDictFacts.In_get _ _ _ Hd) in Hin.
  congruence.
Qed.

Lemma stored_update m k v later :
  Forall (fun kv => lower (fst kv) <> lower k) later ->
  PyDict.get (lower k) (_store m) = Some (k, v) ->
  PyDict.get (lower k) (_store (update m later)) = Some (k, v).
Proof.
  unfold update. intros Hl. revert m.
  induction Hl as [|[k2 v2] later Hne _ IH]; cbn; [done|].
  intros m Hg. apply IH. cbn. by rewrite PyDictFacts.get_set_ne.
Qed.

Lemma update_fresh (l : PyDict.dict string (string * V)) acc :
  NoDup (PyDict.keys (acc ++ l)) ->
  Forall (fun e => fst e = lower (fst (snd e))) l ->
  update (mk acc) (PyDict.values l) = mk (acc ++ l).
Proof.
  unfold update. revert acc. induction l as [|[key [ck v]] l IH]; cbn.
  - intros acc _ _. by rewrite app_nil_r.
  - intros acc Hd Hl. apply Forall_cons in Hl as [E Hl]. cbn in E. subst key.
    unfold __setitem__ at 2. cbn.
    rewrite PyDictFacts.set_fresh.
    + replace (acc ++ (lower ck, (ck, v)) :: l)
        with ((acc ++ [(lower ck, (ck, v))]) ++ l) in * by (by rewrite <- app_assoc).
      by apply IH.
    + apply PyDictFacts.get_None_keys. unfold PyDict.keys in *.
      rewrite map_app in Hd. cbn in Hd.
      apply NoDup_app in Hd as (_ & Hd & _).
      intros Hin. apply (Hd (lower ck)); [by apply list_elem_of_In | by left].
Qed.

Lemma copy_id m : wf m -> copy m = m.
Proof.
  destruct m as [l]. intros [Hd Hl]. exact (update_fresh l [] Hd Hl).
Qed.

Lemma covers_refl (veq : V -> V -> bool) m :
  (forall x, veq x x = true) -> wf m -> covers veq m m = true.
Proof.
  intros Hveq [Hd Hl]. unfold covers, items. apply forallb_forall.
  intros [key' r] (key & [= <- <-] & Hin)%in_map_iff. cbn.
  apply iter_entry in Hin as (lk & v' & Hin).
  assert (lk = lower key) as ->.
  { rewrite Forall_forall in Hl. apply (Hl _ (proj2 (list_elem_of_In _ _) Hin)). }
  unfold __getitem__. by rewrite (PyDictFacts.In_get _ _ _ Hd Hin).
Qed.

End Facts.

(** C8. The UCI option map is case-insensitive and keeps casing. After
    [m[k] = v], and whatever is set later under other keys: a lookup under any
    casing of [k] returns [v]; the iteration yields [k] in the casing of that
    most recent set, and in no other casing; and [copy()] returns a map with
    the same store, hence the same lookups, the same iteration and [==] to the
    original. *)
Theorem option_map_case_insensitive {V : Type} (m : UciOptionMap V)
    (k : string) (v : V) (later : list (string * V)) :
  wf m ->
  Forall (fun kv => lower (fst kv) <> lower k) later ->
  let m' := update (__setitem__ m k v) later in
  (forall k', lower k' = lower k -> __getitem__ m' k' = Ok v) /\
  In k (__iter__ m') /\
  (forall k', In k' (__iter__ m') -> lower k' = lower k -> k' = k) /\
  copy m' = m' /\
  __iter__ (copy m') = __iter__ m' /\
  (forall k', __getitem__ (copy m') k' = __getitem__ m' k') /\
  (forall veq : V -> V -> bool,
      (forall x, veq x x = true) -> __eq__ veq (copy m') m' = true).
Proof.
  intros Hm Hlater m'.
  assert (wf m') as Hm' by (by apply wf_update, wf_setitem).
  assert (PyDict.get (lower k) (_store m') = Some (k, v)) as Hg.
  { apply stored_update; [done|]. cbn. apply PyDictFacts.get_set_eq. }
  assert (copy m' = m') as Hc by (by apply copy_id).
  repeat apply conj.
  - intros k'. by apply stored_lookup.
  - by eapply stored_in_iter.
  - intros k'. by apply stored_casing with v.
  - exact Hc.
  - by rewrite Hc.
  - intros k'. by rewrite Hc.
  - intros veq Hveq. rewrite Hc. unfold __eq__.
    by rewrite covers_refl.
Qed.

(** The theorem at work: "Hash" is set, then set again as "hash", then
    "Threads" is set. *)
Lemma option_map_case_insensitive_witness :
  let m := update (__setitem__ (__setitem__ empty "Hash" (PyInt 16)) "hash" (PyInt 32))
             [("Threads", PyInt 4)] in
  __getitem__ m "HASH" = Ok (PyInt 32) /\ copy m = m.
Proof.
  pose proof (option_map_case_insensitive
                (__setitem__ empty "Hash" (PyInt 16)) "hash" (PyInt 32)
                [("Threads", PyInt 4)]) as H.
  destruct H as (Hget & _ & _ & Hcopy & _).
  - apply wf_setitem, wf_empty.
  - repeat constructor. discriminate.
  - split; [by apply Hget | exact Hcopy].
Defined.

End UciOptionMapFacts.

(** ** Setting UCI options *)

Module UciFacts.
Import UciOptionMap Uci.

Lemma py_eq_refl (v : pyval) : py_eq v v = true.
Proof.
  destruct v as [|b|z|s]; cbn; [done| |apply Z.eqb_refl|apply String.eqb_refl].
  by destruct b.
Qed.

Lemma getoption_advertised (e : UciProtocol) (name : string) (o : Opt.Option) :
  __getitem__ (options e) name = Ok o ->
  _getoption e name PyNone =
    match __getitem__ (config e) name with Ok c => c | Raise _ => Opt.default o end.
Proof. intros Ho. unfold _getoption. by rewrite Ho. Qed.

Lemma setoption_same (e : UciProtocol) name raw o v :
  __getitem__ (options e) name = Ok o -> Opt.parse o raw = Ok v ->
  v <> PyNone -> py_eq v (_getoption e name PyNone) = true ->
  _setoption e name raw = Ok e.
Proof.
  intros Ho Hp Hv He. unfold _setoption. rewrite Ho, Hp. cbn.
  by rewrite bool_decide_eq_false_2, He.
Qed.

Lemma setoption_changed (e : UciProtocol) name raw o v :
  __getitem__ (options e) name = Ok o -> Opt.parse o raw = Ok v ->
  v = PyNone \/ py_eq v (_getoption e name PyNone) = false ->
  _setoption e name raw =
    Ok (mkUci (options e) (__setitem__ (config e) name v)
              (sent e ++ [setoption_line name v])).
Proof.
  intros Ho Hp Hc. unfold _setoption. rewrite Ho, Hp. cbn.
  destruct Hc as [->|He]; [done|]. rewrite He. cbn. by rewrite orb_true_r.
Qed.

Lemma setoption_cases (e : UciProtocol) name raw o v :
  __getitem__ (options e) name = Ok o -> Opt.parse o raw = Ok v ->
  (v <> PyNone /\ py_eq v (_getoption e name PyNone) = true) \/
  (v = PyNone \/ py_eq v (_getoption e name PyNone) = false).
Proof.
  intros _ _. destruct (decide (v = PyNone)); [right; by left|].
  destruct (py_eq v (_getoption e name PyNone)); [by left | right; by right].
Qed.

(** C10. For an advertised option and a raw value that parses to [v]:
    the effective value is the config override when present and the declared
    default otherwise; when [v] is not null and equals it, [_setoption] sends
    nothing and leaves the driver as it is; otherwise it sends exactly one
    setoption line and records [v] in config. Hence setting the same non-null
    value twice writes at most one line, the second call being a no-op, and a
    null value (a button) is sent every time. *)
Theorem setoption_sends_only_changes (e : UciProtocol) (name : string)
    (raw : pyval) (o : Opt.Option) (v : pyval) :
  __getitem__ (options e) name = Ok o ->
  Opt.parse o raw = Ok v ->
  let current :=
    match __getitem__ (config e) name with Ok c => c | Raise _ => Opt.default o end in
  _getoption e name PyNone = current /\
  (v <> PyNone -> py_eq v current = true -> _setoption e name raw = Ok e) /\
  (v = PyNone \/ py_eq v current = false ->
     _setoption e name raw =
       Ok (mkUci (options e) (__setitem__ (config e) name v)
                 (sent e ++ [setoption_line name v]))) /\
  (v <> PyNone ->
     exists e1, _setoption e name raw = Ok e1 /\ _setoption e1 name raw = Ok e1 /\
       (sent e1 = sent e \/ sent e1 = sent e ++ [setoption_line name v])) /\
  (v = PyNone ->
     exists e1, _setoption e name raw = Ok e1 /\
       sent e1 = sent e ++ ["setoption name " +:+ name] /\
       exists e2, _setoption e1 name raw = Ok e2 /\
         sent e2 = sent e1 ++ ["setoption name " +:+ name]).
Proof.
  intros Ho Hp current.
  assert (_getoption e name PyNone = current) as Hcur by (by apply getoption_advertised).
  repeat apply conj.
  - exact Hcur.
  - intros Hv He. apply (setoption_same e name raw o v); congruence.
  - intros Hc. apply (setoption_changed e name raw o v); congruence.
  - intros Hv.
    destruct (setoption_cases e name raw o v Ho Hp) as [[_ He]|Hc].
    + exists e. rewrite (setoption_same e name raw o v) by done. auto.
    + rewrite (setoption_changed e name raw o v) by done.
      eexists. split; [reflexivity|]. split; [|by right].
      apply (setoption_same _ name raw o v); [done|done|done|].
      unfold _getoption. cbn. rewrite UciOptionMapFacts.getitem_setitem by done. apply py_eq_refl.
  - intros ->.
    rewrite (setoption_changed e name raw o PyNone) by auto.
    eexists. split; [reflexivity|]. split; [reflexivity|].
    rewrite (setoption_changed _ name raw o PyNone) by auto.
    eexists. split; reflexivity.
Qed.

(** The theorem at work: an engine that declares a spin option "Hash" with
    default 16 is asked, under another casing, to set it to 16. *)
Lemma setoption_sends_only_changes_witness :
  let e := mkUci (__setitem__ empty "Hash"
                    (Opt.mkOption "Hash" "spin" (PyInt 16) (Some 1) (Some 1024) None))
                 empty [] in
  _setoption e "hash" (PyStr "16") = Ok e.
Proof.
  intros e.
  apply (proj1 (proj2 (setoption_sends_only_changes e "hash" (PyStr "16")
                         (Opt.mkOption "Hash" "spin" (PyInt 16) (Some 1) (Some 1024) None)
                         (PyInt 16) eq_refl eq_refl)));
    [discriminate | reflexivity].
Defined.

End UciFacts.

(** ** Strings and numerals *)

Module PyFacts.

Lemma digit_cases (c : ascii) :
  is_digit c = true ->
  is_space c = false /\ Ascii.eqb c "_" = false /\ Ascii.eqb c " " = false /\
  c <> "-"%char /\ c <> "+"%char.
Proof.
  destruct c as [[|] [|] [|] [|] [|] [|] [|] [|]]; cbn; intros; try discriminate;
    repeat split; discriminate.
Qed.

Lemma all_digits_uint (d : Decimal.uint) :
  all_digits (NilEmpty.string_of_uint d) = true.
Proof. induction d; cbn; auto. Qed.

Lemma all_digits_nilzero (d : Decimal.uint) :
  all_digits (NilZero.string_of_uint d) = true /\ NilZero.string_of_uint d <> "".
Proof.
  destruct d; cbn; split; try done; apply (all_digits_uint).
Qed.

Lemma digits_no_space (s : string) :
  all_digits s = true -> contains_char " " s = false.
Proof.
  induction s as [|c s IH]; cbn -[Ascii.eqb]; [done|].
  intros [Hc Hs]%andb_true_iff. rewrite (IH Hs).
  destruct (digit_cases c Hc) as (_ & _ & E & _).
  rewrite Ascii.eqb_sym. by rewrite E.
Qed.

Lemma digits_lstrip (s : string) : all_digits s = true -> lstrip s = s.
Proof.
  destruct s as [|c s]; cbn -[Ascii.eqb]; [done|].
  intros [Hc _]%andb_true_iff. by rewrite (proj1 (digit_cases c Hc)).
Qed.

Lemma digits_rstrip (s : string) : all_digits s = true -> rstrip s = s.
Proof.
  induction s as [|c s IH]; cbn -[Ascii.eqb]; [done|].
  intros [Hc Hs]%andb_true_iff. rewrite (IH Hs).
  by rewrite (proj1 (digit_cases c Hc)).
Qed.

Lemma digits_drop_underscores (s : string) (b : bool) :
  all_digits s = true -> (s <> "" \/ b = true) ->
  drop_underscores b s = Some s.
Proof.
  revert b. induction s as [|c s IH]; cbn -[Ascii.eqb].
  - intros b _ [?| ->]; done.
  - intros b [Hc Hs]%andb_true_iff _.
    destruct (digit_cases c Hc) as (_ & -> & _).
    rewrite (IH true) by auto. done.
Qed.

Lemma digits_numeral (d : Decimal.uint) :
  numeral (NilZero.string_of_uint d) = Some (Z.of_uint d).
Proof.
  destruct (all_digits_nilzero d) as [Hd Hne].
  unfold numeral. rewrite digits_drop_underscores by auto. cbn -[Ascii.eqb].
  destruct d; try (rewrite NilZero.usu; done). reflexivity.
Qed.

Lemma int_of_str_of_Z (z : Z) : int_of_str (str_of_Z z) = Some z.
Proof.
  unfold int_of_str, str_of_Z, strip.
  rewrite <- (DecimalZ.of_to z) at 2.
  destruct (Z.to_int z) as [d|d]; cbn [NilZero.string_of_int].
  - destruct (all_digits_nilzero d) as [Hd Hne].
    rewrite digits_rstrip, digits_lstrip by done.
    pose proof (digits_numeral d) as Hnum.
    destruct (NilZero.string_of_uint d) as [|c s] eqn:E; [done|].
    cbn in Hd. apply andb_true_iff in Hd as [Hc _].
    destruct (digit_cases c Hc) as (_ & _ & _ & Hm & Hp).
    destruct c as [[|] [|] [|] [|] [|] [|] [|] [|]]; try done.
  - destruct (all_digits_nilzero d) as [Hd Hne].
    cbn [rstrip]. rewrite digits_rstrip by done. cbn -[Ascii.eqb].
    destruct (String.eqb_spec (NilZero.string_of_uint d) ""); [done|].
    cbn. by rewrite digits_numeral.
Qed.

Lemma str_of_Z_shape (z : Z) :
  exists c s, str_of_Z z = String c s /\ (c = "-"%char \/ is_digit c = true) /\
              all_digits s = true.
Proof.
  unfold str_of_Z. destruct (Z.to_int z) as [d|d]; cbn [NilZero.string_of_int].
  - destruct (all_digits_nilzero d) as [Hd Hne].
    destruct (NilZero.string_of_uint d) as [|c s]; [done|].
    cbn in Hd. apply andb_true_iff in Hd as [Hc Hs]. eauto 6.
  - destruct (all_digits_nilzero d) as [Hd Hne]. eauto 6.
Qed.

Lemma str_of_Z_no_space (z : Z) : contains_char " " (str_of_Z z) = false.
Proof.
  destruct (str_of_Z_shape z) as (c & s & -> & Hc & Hs). cbn -[Ascii.eqb].
  rewrite (digits_no_space s Hs).
  destruct Hc as [->|Hc]; [done|].
  destruct (digit_cases c Hc) as (_ & _ & E & _).
  rewrite Ascii.eqb_sym. by rewrite E.
Qed.

(** A numeral differs from every string that does not start like one. *)
Lemma str_of_Z_not_word (z : Z) (w : string) :
  no_numeral w = true -> String.eqb (str_of_Z z) w = false.
Proof.
  destruct (str_of_Z_shape z) as (c & s & -> & Hc & Hs).
  destruct w as [|c' w]; [done|]. unfold no_numeral. intros Hw.
  apply String.eqb_neq. intros [= -> ->].
  destruct Hc as [->|Hc]; [done|]. rewrite Hc, orb_true_r in Hw. done.
Qed.

Lemma str_of_Z_not_in (z : Z) (ws : list string) :
  forallb no_numeral ws = true -> str_in (str_of_Z z) ws = false.
Proof.
  unfold str_in. induction ws as [|w ws IH]; cbn -[no_numeral]; [done|].
  intros [Hw Hws]%andb_true_iff. by rewrite str_of_Z_not_word, IH.
Qed.

(** ** Splitting and joining *)

Lemma split_on_nonempty (sep : ascii) (s : string) : split_on sep s <> [].
Proof.
  induction s as [|c s IH]; cbn -[Ascii.eqb]; [done|].
  destruct (Ascii.eqb c sep); [done|]. by destruct (split_on sep s).
Qed.

Lemma split_on_no_sep (s : string) :
  contains_char " " s = false -> split_on " " s = [s].
Proof.
  induction s as [|c s IH]; cbn -[Ascii.eqb]; [done|].
  intros [Hc Hs]%orb_false_iff. rewrite Ascii.eqb_sym in Hc. rewrite Hc.
  by rewrite (IH Hs).
Qed.

Lemma split_on_app (a b : string) :
  contains_char " " a = false ->
  split_on " " (a +:+ String " " b) = a :: split_on " " b.
Proof.
  induction a as [|c a IH]; [done|].
  cbn -[Ascii.eqb]. intros [Hc Hs]%orb_false_iff.
  change (String c a +:+ String " " b) with (String c (a +:+ String " " b)).
  cbn -[Ascii.eqb]. rewrite Ascii.eqb_sym in Hc. rewrite Hc.
  by rewrite (IH Hs).
Qed.

Lemma split_on_app_sep (a b : string) :
  split_on " " (a +:+ String " " b) = split_on " " a ++ split_on " " b.
Proof.
  induction a as [|c a IH]; [done|].
  change (String c a +:+ String " " b) with (String c (a +:+ String " " b)).
  cbn -[Ascii.eqb]. rewrite IH.
  destruct (Ascii.eqb c " "); [done|].
  pose proof (split_on_nonempty " " a) as Ha.
  by destruct (split_on " " a).
Qed.

Lemma join_cons (t : string) (ts : list string) :
  ts <> [] -> join " " (t :: ts) = t +:+ String " " (join " " ts).
Proof. destruct ts; [done|]. reflexivity. Qed.

Lemma split_on_join (ts : list string) :
  ts <> [] -> Forall (fun t => contains_char " " t = false) ts ->
  split_on " " (join " " ts) = ts.
Proof.
  intros Hne Hts. induction Hts as [|t ts Ht Hts IH]; [done|].
  destruct ts as [|t' ts].
  - cbn. by apply split_on_no_sep.
  - rewrite join_cons by done. rewrite split_on_app by done.
    by rewrite IH.
Qed.

Lemma join_split_on (s : string) : join " " (split_on " " s) = s.
Proof.
  induction s as [|c s IH]; cbn -[Ascii.eqb]; [done|].
  destruct (Ascii.eqb_spec c " ") as [->|Hne].
  - rewrite join_cons by apply split_on_nonempty. by rewrite IH.
  - pose proof (split_on_nonempty " " s) as Hs.
    destruct (split_on " " s) as [|t ts]; [done|].
    destruct ts as [|t' ts]; cbn in *; by rewrite <- IH.
Qed.

End PyFacts.

(** ** The UCI info parser *)

Module UciInfoFacts.
Import UciInfo.

Section Facts.
Context `{ChessRules} `{PyFloat}.
Variables (root_board : Board) (selector : Z).

Abbreviation step := (step root_board selector).
Abbreviation start_parameter := (start_parameter root_board selector).

Ltac fields :=
  unfold set_info;
  cbn [set_info end_of_parameter info board pv score_kind refutation_move
       refuted_by currline_cpunr currline_moves string_ current_parameter
       is_parameter].

(** *** The [string] parameter *)

Lemma step_in_string (l : locals) (token : string) :
  is_parameter l "string" = true ->
  step l token =
    mkLocals (info l) (board l) (pv l) (score_kind l) (refutation_move l)
             (refuted_by l) (currline_cpunr l) (currline_moves l)
             (string_ l ++ [token]) (current_parameter l).
Proof. intros Hs. unfold UciInfo.step. by rewrite Hs. Qed.

Lemma fold_in_string (tokens : list string) (l : locals) :
  is_parameter l "string" = true ->
  fold_left step tokens l =
    mkLocals (info l) (board l) (pv l) (score_kind l) (refutation_move l)
             (refuted_by l) (currline_cpunr l) (currline_moves l)
             (string_ l ++ tokens) (current_parameter l).
Proof.
  revert l. induction tokens as [|t tokens IH]; intros l Hs; cbn [fold_left].
  - rewrite app_nil_r. by destruct l.
  - rewrite step_in_string by done. rewrite IH by done. fields.
    by rewrite <- app_assoc.
Qed.

(** Before the keyword [string] is met, nothing is collected for it. *)
Definition outside_string (l : locals) : Prop :=
  is_parameter l "string" = false /\ string_ l = [].

Lemma string_end_of_parameter (l : locals) :
  string_ (end_of_parameter l) = string_ l /\
  current_parameter (end_of_parameter l) = current_parameter l.
Proof. done. Qed.

Lemma outside_string_start (l : locals) (token : string) :
  outside_string l -> token <> "string" ->
  outside_string (start_parameter l token).
Proof.
  intros [Hp Hs] Hne. unfold UciInfo.start_parameter.
  repeat case_match; split; fields; try done;
    by apply String.eqb_neq.
Qed.

Lemma outside_string_step (l : locals) (token : string) :
  outside_string l -> token <> "string" -> outside_string (step l token).
Proof.
  intros Hl Hne. pose proof Hl as [Hp Hs]. unfold UciInfo.step. rewrite Hp.
  destruct (String.eqb token ""); [done|].
  destruct (str_in token keywords); [by apply outside_string_start|].
  repeat case_match; try done; split; fields; try done;
    match goal with
    | E : current_parameter l = Some _ |- _ =>
        unfold is_parameter in Hp; rewrite E in Hp; exact Hp
    end.
Qed.

Lemma outside_string_fold (tokens : list string) (l : locals) :
  outside_string l -> Forall (fun t => t <> "string") tokens ->
  outside_string (fold_left step tokens l).
Proof.
  intros Hl Ht. revert l Hl.
  induction Ht as [|t tokens Hne _ IH]; intros l Hl; cbn [fold_left]; [done|].
  by apply IH, outside_string_step.
Qed.

Lemma step_string_keyword (l : locals) :
  outside_string l ->
  step l "string" =
    mkLocals (info (end_of_parameter l)) None None None None [] None [] []
             (Some "string").
Proof.
  intros [Hp Hs]. unfold UciInfo.step. rewrite Hp. cbn [String.eqb].
  change (str_in "string" keywords) with true. cbv iota.
  unfold UciInfo.start_parameter.
  change (String.eqb "string" "pv") with false.
  change (String.eqb "string" "refutation") with false.
  change (String.eqb "string" "currline") with false.
  cbn [andb]. cbv iota. fields. by rewrite Hs.
Qed.

Lemma finish_string (l : locals) (tokens : list string) :
  tokens <> [] -> pv l = None -> refutation_move l = None ->
  currline_cpunr l = None -> string_ l = tokens ->
  finish l = <["string" := IStr (join " " tokens)]> (info l).
Proof.
  intros Hne Hpv Hr Hc Hs. unfold finish. fields.
  rewrite Hpv, Hr, Hc, Hs. by destruct tokens.
Qed.

(** The text after the keyword [string] and its separating space is stored
    as it stands; nothing in it reaches the other parameters. *)
Lemma parse_string_remainder (pre : list string) (rest : string) :
  selector <> 0 ->
  Forall (fun t => contains_char " " t = false /\ t <> "string") pre ->
  _parse_uci_info (join " " (pre ++ ["string"]) +:+ " " +:+ rest)
                  root_board selector =
    <["string" := IStr rest]>
      (_parse_uci_info (join " " (pre ++ ["string"])) root_board selector).
Proof.
  intros Hsel Hpre. unfold _parse_uci_info.
  destruct (Z.eqb_spec selector 0) as [?|_]; [done|].
  change (" " +:+ rest) with (String " " rest).
  rewrite PyFacts.split_on_app_sep.
  rewrite PyFacts.split_on_join.
  2: { by destruct pre. }
  2: { apply Forall_app. split; [|by repeat constructor].
       eapply Forall_impl; [exact Hpre|]. by intros t [? _]. }
  rewrite !fold_left_app. cbn [fold_left].
  rewrite step_string_keyword.
  2: { apply outside_string_fold; [done|].
       eapply Forall_impl; [exact Hpre|]. by intros t [_ ?]. }
  rewrite fold_in_string by done. fields.
  rewrite (finish_string _ (split_on " " rest)); try done.
  - by rewrite PyFacts.join_split_on.
  - apply PyFacts.split_on_nonempty.
Qed.

(** Only [finish] writes the key "string". *)
Lemma no_string_end_of_parameter (l : locals) :
  info l !! "string" = None -> info (end_of_parameter l) !! "string" = None.
Proof.
  intros Hl. fields.
  repeat case_match; by rewrite ?lookup_insert_ne.
Qed.

Lemma no_string_step (l : locals) (token : string) :
  info l !! "string" = None -> info (step l token) !! "string" = None.
Proof.
  intros Hl. pose proof (no_string_end_of_parameter l Hl) as He.
  unfold UciInfo.step, UciInfo.start_parameter, is_parameter.
  destruct (current_parameter l) as [c|] eqn:Ec.
  - destruct (String.eqb_spec c "string") as [->|Hc]; [done|].
    repeat case_match; try done; cbn [info set_info];
      by rewrite ?lookup_insert_ne by done.
  - repeat case_match; try done; cbn [info set_info];
      by rewrite ?lookup_insert_ne by done.
Qed.

Lemma no_string_fold (tokens : list string) (l : locals) :
  info l !! "string" = None ->
  info (fold_left step tokens l) !! "string" = None.
Proof.
  revert l. induction tokens as [|t tokens IH]; intros l Hl; cbn [fold_left];
    [done|].
  by apply IH, no_string_step.
Qed.

(** A line that ends with the keyword stores nothing for it. *)
Lemma parse_string_nothing (pre : list string) :
  Forall (fun t => contains_char " " t = false /\ t <> "string") pre ->
  _parse_uci_info (join " " (pre ++ ["string"])) root_board selector
    !! "string" = None.
Proof.
  intros Hpre. unfold _parse_uci_info.
  destruct (Z.eqb_spec selector 0) as [?|_]; [done|].
  rewrite PyFacts.split_on_join.
  2: { by destruct pre. }
  2: { apply Forall_app. split; [|by repeat constructor].
       eapply Forall_impl; [exact Hpre|]. by intros t [? _]. }
  rewrite fold_left_app. cbn [fold_left].
  assert (outside_string (fold_left step pre initial)) as Ho.
  { apply outside_string_fold; [done|].
    eapply Forall_impl; [exact Hpre|]. by intros t [_ ?]. }
  rewrite step_string_keyword by done.
  unfold finish. cbn [string_ end_of_parameter set_info pv refutation_move currline_cpunr info].
  by apply no_string_end_of_parameter, no_string_fold.
Qed.

(** *** Integers, scores and moves *)

Lemma step_int_parameter (l : locals) (c token : string) (n : Z) :
  current_parameter l = Some c ->
  str_in c int_parameters = true ->
  String.eqb token "" = false -> str_in token keywords = false ->
  int_of_str token = Some n ->
  step l token = set_info l (<[c := IInt n]> (info l)).
Proof.
  intros Hc Hi Ht Hk Hn. unfold UciInfo.step, is_parameter.
  rewrite Hc, Ht, Hk, Hi, Hn.
  assert (String.eqb c "string" = false) as ->; [|done].
  unfold str_in, int_parameters in Hi. cbn [existsb] in Hi.
  repeat (apply orb_true_iff in Hi as [->%String.eqb_eq|Hi]; [done|]).
  done.
Qed.

Lemma step_score_cp (l : locals) (token : string) (n : Z) :
  current_parameter l = Some "score" -> score_kind l = Some "cp" ->
  selects selector INFO_SCORE = true ->
  String.eqb token "" = false -> str_in token keywords = false ->
  str_in token ["cp"; "mate"; "lowerbound"; "upperbound"] = false ->
  int_of_str token = Some n ->
  step l token =
    set_info l (<["score" := IScore (mkPovScore (Score.Cp n) (turn root_board))]> (info l)).
Proof.
  intros Hc Hk Hsel Ht Hkw Hw Hn. unfold UciInfo.step, is_parameter.
  rewrite Hc, Ht, Hkw, Hsel, Hn, Hk.
  unfold str_in in Hw. cbn [existsb] in Hw.
  apply orb_false_iff in Hw as [Hcp Hw]. apply orb_false_iff in Hw as [Hmate Hw].
  apply orb_false_iff in Hw as [Hlo Hw]. apply orb_false_iff in Hw as [Hup _].
  unfold str_in. cbn [existsb]. rewrite Hcp, Hmate, Hlo, Hup. done.
Qed.

Lemma step_pv_move (l : locals) (token : string) (b b' : Board)
    (moves : list Move) (m : Move) :
  current_parameter l = Some "pv" -> pv l = Some moves -> board l = Some b ->
  move_token token -> push_uci b token = Some (m, b') ->
  step l token =
    mkLocals (info l) (Some b') (Some (moves ++ [m])) (score_kind l)
             (refutation_move l) (refuted_by l) (currline_cpunr l)
             (currline_moves l) (string_ l) (current_parameter l).
Proof.
  intros Hc Hpv Hb (Hne & _ & Hkw) Hpush. unfold UciInfo.step, is_parameter.
  rewrite Hc, Hkw, Hpv, Hb, Hpush.
  by apply String.eqb_neq in Hne as ->.
Qed.

Lemma numeral_token (z : Z) :
  String.eqb (str_of_Z z) "" = false /\
  contains_char " " (str_of_Z z) = false /\
  str_in (str_of_Z z) keywords = false /\
  str_in (str_of_Z z) ["cp"; "mate"; "lowerbound"; "upperbound"] = false.
Proof.
  repeat split.
  - by apply PyFacts.str_of_Z_not_word.
  - apply PyFacts.str_of_Z_no_space.
  - by apply PyFacts.str_of_Z_not_in.
  - by apply PyFacts.str_of_Z_not_in.
Qed.

(** The arguments of [info depth D score cp C pv M1 M2 M3], parsed with a
    selector that asks for the score and the principal variation. *)
Lemma parse_depth_score_pv (D C : Z) (t1 t2 t3 : string) (M1 M2 M3 : Move)
    (b1 b2 b3 : Board) :
  selects selector INFO_SCORE = true -> selects selector INFO_PV = true ->
  move_token t1 -> move_token t2 -> move_token t3 ->
  push_uci (copy_board root_board) t1 = Some (M1, b1) ->
  push_uci b1 t2 = Some (M2, b2) ->
  push_uci b2 t3 = Some (M3, b3) ->
  _parse_uci_info
    (join " " ["depth"; str_of_Z D; "score"; "cp"; str_of_Z C; "pv"; t1; t2; t3])
    root_board selector =
  <["pv" := IMoves [M1; M2; M3]]>
    (<["score" := IScore (mkPovScore (Score.Cp C) (turn root_board))]>
       (<["depth" := IInt D]> ∅)).
Proof.
  intros Hscore Hpv Ht1 Ht2 Ht3 Hp1 Hp2 Hp3.
  destruct (numeral_token D) as (HD1 & HD2 & HD3 & _).
  destruct (numeral_token C) as (HC1 & HC2 & HC3 & HC4).
  unfold _parse_uci_info.
  destruct (Z.eqb_spec selector 0) as [->|_]; [done|].
  rewrite PyFacts.split_on_join; [|done|].
  2: { pose proof Ht1 as (_ & ? & _). pose proof Ht2 as (_ & ? & _).
       pose proof Ht3 as (_ & ? & _). by repeat constructor. }
  cbn [fold_left].
  (* depth D *)
  assert (step initial "depth"
          = mkLocals ∅ None None None None [] None [] [] (Some "depth")) as ->
    by reflexivity.
  rewrite (step_int_parameter _ "depth" (str_of_Z D) D);
    [|done|done|done|done|apply PyFacts.int_of_str_of_Z].
  fields.
  (* score cp C *)
  assert (forall i,
    step (mkLocals i None None None None [] None [] [] (Some "depth")) "score"
    = mkLocals i None None None None [] None [] [] (Some "score")) as ->
    by reflexivity.
  assert (forall i,
    step (mkLocals i None None None None [] None [] [] (Some "score")) "cp"
    = mkLocals i None None (Some "cp") None [] None [] [] (Some "score")) as ->.
  { intros i. unfold UciInfo.step. cbn. by rewrite Hscore. }
  rewrite (step_score_cp _ (str_of_Z C) C);
    [|done|done|done|done|done|done|apply PyFacts.int_of_str_of_Z].
  fields.
  (* pv M1 M2 M3 *)
  assert (forall i,
    step (mkLocals i None None (Some "cp") None [] None [] [] (Some "score")) "pv"
    = mkLocals i (Some (copy_board root_board)) (Some []) None None [] None []
               [] (Some "pv")) as ->.
  { intros i. unfold UciInfo.step, UciInfo.start_parameter. cbn.
    by rewrite Hpv. }
  rewrite (step_pv_move _ t1 _ b1 [] M1) by done. fields.
  rewrite (step_pv_move _ t2 _ b2 [M1] M2) by done. fields.
  rewrite (step_pv_move _ t3 _ b3 [M1; M2] M3) by done. fields.
  reflexivity.
Qed.

Lemma substring_all (s : string) : String.substring 0 (String.length s) s = s.
Proof. induction s as [|c s IH]; cbn; [done|]. by rewrite IH. Qed.

Lemma prefix_app (p s : string) : String.prefix p (p +:+ s) = true.
Proof.
  induction p as [|c p IH]; [by destruct s|].
  change (String c p +:+ s) with (String c (p +:+ s)).
  cbn [String.prefix]. by destruct (ascii_dec c c).
Qed.

Lemma info_of_line_arg (arg : string) :
  info_of_line ("info " +:+ arg) root_board selector
  = Some (_parse_uci_info arg root_board selector).
Proof.
  unfold info_of_line, startswith. rewrite prefix_app.
  change ("info " +:+ arg)
    with (String "i" (String "n" (String "f" (String "o" (String " " arg))))).
  cbn [String.length Nat.sub String.substring].
  by rewrite Nat.sub_0_r, substring_all.
Qed.

End Facts.

(** C4. Parsing the line [info depth D score cp C pv M1 M2 M3] with the full
    selector yields exactly depth = D, score = PovScore(Cp(C), root turn) and
    pv = [M1, M2, M3], for moves that are legal in turn from the root
    position; and, with any selector that is not empty, a line whose keyword
    [string] is followed by a separator stores all the text after it under
    "string" as it stands, the other keys being those of the line cut at the
    keyword. *)
Theorem uci_info_round_trip `{ChessRules} `{PyFloat} (root_board : Board)
    (D C : Z) (t1 t2 t3 : string) (M1 M2 M3 : Move) (b1 b2 b3 : Board)
    (selector : Z) (pre : list string) (rest : string) :
  move_token t1 -> move_token t2 -> move_token t3 ->
  push_uci (copy_board root_board) t1 = Some (M1, b1) ->
  push_uci b1 t2 = Some (M2, b2) ->
  push_uci b2 t3 = Some (M3, b3) ->
  selector <> 0 ->
  Forall (fun t => contains_char " " t = false /\ t <> "string") pre ->
  info_of_line
    ("info " +:+
     join " " ["depth"; str_of_Z D; "score"; "cp"; str_of_Z C; "pv"; t1; t2; t3])
    root_board INFO_ALL =
  Some (<["pv" := IMoves [M1; M2; M3]]>
          (<["score" := IScore (mkPovScore (Score.Cp C) (turn root_board))]>
             (<["depth" := IInt D]> ∅))) /\
  (exists i,
     info_of_line ("info " +:+ join " " (pre ++ ["string"]) +:+ " " +:+ rest)
                  root_board selector = Some i /\
     i !! "string" = Some (IStr rest) /\
     i = <["string" := IStr rest]>
           (_parse_uci_info (join " " (pre ++ ["string"])) root_board selector)).
Proof.
  intros Ht1 Ht2 Ht3 Hp1 Hp2 Hp3 Hsel Hpre. split.
  - rewrite info_of_line_arg. f_equal.
    by apply (parse_depth_score_pv root_board INFO_ALL D C t1 t2 t3 M1 M2 M3 b1 b2 b3).
  - eexists. rewrite info_of_line_arg. split; [reflexivity|].
    rewrite parse_string_remainder by done.
    split; [apply lookup_insert_eq | reflexivity].
Qed.

#[local] Existing Instances Toy.toy_chess Toy.toy_float.

(** The theorem at work on the small board, after 1. e4: depth 10, score 34
    for Black, and three replies; and a line whose string holds keywords. *)
Lemma uci_info_round_trip_witness :
  info_of_line "info depth 10 score cp 34 pv e7e5 g1f3 b8c6" ["e2e4"] INFO_ALL
  = Some (<["pv" := IMoves ["e7e5"; "g1f3"; "b8c6"]]>
            (<["score" := IScore (mkPovScore (Score.Cp 34) false)]>
               (<["depth" := IInt 10]> ∅))) /\
  (exists i, info_of_line "info depth 3 string depth 5  pv" ["e2e4"] INFO_PV = Some i /\
             i !! "string" = Some (IStr "depth 5  pv")).
Proof.
  destruct (@uci_info_round_trip Toy.toy_chess Toy.toy_float
              ["e2e4"] 10 34 "e7e5" "g1f3" "b8c6" "e7e5" "g1f3" "b8c6"
              ["e2e4"; "e7e5"] ["e2e4"; "e7e5"; "g1f3"]
              ["e2e4"; "e7e5"; "g1f3"; "b8c6"] INFO_PV ["depth"; "3"]
              "depth 5  pv") as [Hline (i & Hi & Hs & _)];
    try (repeat split; done); try reflexivity.
  - repeat constructor; done.
  - split; [exact Hline | exists i; split; [exact Hi | exact Hs]].
Defined.

End UciInfoFacts.

(** ** The command dispatch core *)

Module DispatchFacts.
Import Dispatch.

Local Open Scope nat_scope.
Local Open Scope stmt_scope.

Section Facts.
Context {E V L : Type}.

Abbreviation Proto := (EngineProtocol E V L).
Abbreviation Cmd := (Command E V L).
Abbreviation keeps := (@Dispatch.keeps E V L _).
Abbreviation leads := (@Dispatch.leads E V L _).

(** *** Running statements *)

Lemma keeps_ret {A : Type} (P : Proto -> Prop) (a : A) : keeps P (ret a).
Proof. by intros s. Qed.

Lemma keeps_raise {A : Type} (P : Proto -> Prop) (e : exn) : keeps P (raise (A:=A) e).
Proof. by intros s. Qed.

Lemma keeps_gets {A : Type} (P : Proto -> Prop) (f : Proto -> A) : keeps P (gets f).
Proof. by intros s. Qed.

Lemma keeps_assert (P : Proto -> Prop) (b : bool) (msg : string) :
  keeps P (assert_ b msg).
Proof. intros s. by destruct b. Qed.

Lemma keeps_modify (P : Proto -> Prop) (f : Proto -> Proto) :
  (forall s, P s -> P (f s)) -> keeps P (modify f).
Proof. intros Hf s. apply Hf. Qed.

Lemma keeps_bind {A B : Type} (P : Proto -> Prop) (m : proto A) (k : A -> proto B) :
  keeps P m -> (forall a, keeps P (k a)) -> keeps P (bindM m k).
Proof.
  intros Hm Hk s Hs. specialize (Hm s Hs). unfold exec, bindM in *.
  destruct (m s) as [s' [a|e]]; cbn in *; [by apply Hk | done].
Qed.

Lemma keeps_try_except {A : Type} (P : Proto -> Prop) (m : proto A)
    (handler : exn -> option (proto A)) :
  keeps P m -> (forall e h, handler e = Some h -> keeps P h) ->
  keeps P (try_except m handler).
Proof.
  intros Hm Hh s Hs. specialize (Hm s Hs). unfold exec, try_except in *.
  destruct (m s) as [s' [a|e]]; cbn in *; [done|].
  destruct (handler e) as [h|] eqn:Eh; [by eapply Hh | done].
Qed.

(** A statement that starts by fetching a command object. *)
Lemma keeps_get_command {A : Type} (P : Proto -> Prop) (cmd : nat)
    (k : Cmd -> proto A) :
  (forall s c, commands s !! cmd = Some c -> P s -> P (exec (k c) s)) ->
  keeps P (bindM (get_command cmd) k).
Proof.
  intros Hk s Hs. unfold exec, bindM, get_command.
  destruct (commands s !! cmd) as [c|] eqn:Ec; cbn; [by apply Hk | done].
Qed.

Lemma keeps_get_command_any {A : Type} (P : Proto -> Prop) (cmd : nat)
    (k : Cmd -> proto A) :
  (forall c, keeps P (k c)) -> keeps P (bindM (get_command cmd) k).
Proof. intros Hk. apply keeps_get_command. intros s c _. apply Hk. Qed.

Lemma keeps_assert_then {A : Type} (P : Proto -> Prop) (b : bool) (msg : string)
    (k : proto A) :
  (b = true -> keeps P k) -> keeps P (bindM (assert_ b msg) (fun _ => k)).
Proof. intros Hk. destruct b; [by apply Hk | by intros s]. Qed.

Lemma exec_ok_bind {A B : Type} (m : proto A) (k : A -> proto B) (s s1 : Proto) (a : A) :
  m s = (s1, Ok a) -> exec (bindM m k) s = exec (k a) s1.
Proof. intros Hm. unfold exec, bindM. by rewrite Hm. Qed.

Lemma exec_raise_bind {A B : Type} (m : proto A) (k : A -> proto B) (s s1 : Proto) (e : exn) :
  m s = (s1, Raise e) -> exec (bindM m k) s = s1.
Proof. intros Hm. unfold exec, bindM. by rewrite Hm. Qed.

(** *** A superseded command stays superseded *)

Section Superseded.
Variable i : nat.

Lemma superseded_frame (s s' : Proto) :
  superseded i s ->
  commands s' !! i = commands s !! i ->
  started s' = started s ->
  (forall line, In (i, line) (sent s') -> In (i, line) (sent s)) ->
  superseded i s'.
Proof.
  intros (c & Hc & Hrest) Hcmd Hst Hsent. exists c.
  rewrite Hcmd, Hst. destruct Hrest as (? & ? & ? & ? & Hno).
  repeat split; try done. intros line Hin. by eapply Hno, Hsent.
Qed.

Lemma superseded_put (j : nat) (c : Cmd) :
  j <> i -> keeps (superseded i) (put_command j c).
Proof.
  intros Hne s Hs. apply (superseded_frame s); try done.
  cbn. by rewrite list_lookup_insert_ne.
Qed.

Lemma superseded_call_soon (cbs : list callback) :
  keeps (superseded i) (call_soon cbs).
Proof. intros s Hs. by apply (superseded_frame s). Qed.

Lemma superseded_run_hook {A : Type} (j : nat) (h : hook E V L A) :
  j <> i -> keeps (superseded i) (run_hook j h).
Proof.
  intros Hne s Hs. unfold exec, run_hook.
  destruct (commands s !! j) as [c|]; [|done].
  destruct (h _) as [f' r]. cbn.
  apply (superseded_frame s); try done; cbn.
  - by rewrite list_lookup_insert_ne.
  - intros line [Hin|Hin]%in_app_or; [done|].
    apply in_map_iff in Hin as (x & [= -> _] & _). done.
Qed.

Lemma superseded_lookup (s : Proto) (c : Cmd) :
  superseded i s -> commands s !! i = Some c ->
  state c = Done /\ f_state (result c) = Cancelled /\ f_state (finished c) = Cancelled.
Proof. intros (c' & Hc & ? & ? & ? & _) Hi. by simplify_eq. Qed.

Ltac not_me s c :=
  match goal with
  | Hc : commands s !! ?j = Some c, Hs : superseded i s |- _ =>
      destruct (decide (j = i)) as [->|];
      [destruct (superseded_lookup s c Hs Hc) as (? & ? & ?)|]
  end.

Lemma superseded_result_cancel (j : nat) : keeps (superseded i) (result_cancel j).
Proof.
  apply keeps_get_command. intros s c Hc Hs.
  destruct (f_state (result c)) eqn:Er; try done.
  not_me s c; [congruence|].
  clear Hc; revert s Hs. change (keeps (superseded i)
    (put_command j (mkCommand (state c) (mkFuture Cancelled []) (finished c)
                              (local c) (hooks c));;
     call_soon (f_callbacks (result c));; ret true)).
  repeat (apply keeps_bind; [|intros ?]);
    auto using superseded_put, superseded_call_soon, keeps_ret.
Qed.

Lemma superseded_finished_cancel (j : nat) :
  keeps (superseded i) (finished_cancel j).
Proof.
  apply keeps_get_command. intros s c Hc Hs.
  destruct (f_state (finished c)) eqn:Er; try done.
  not_me s c; [congruence|].
  clear Hc; revert s Hs. change (keeps (superseded i)
    (put_command j (mkCommand (state c) (result c) (mkFuture Cancelled [])
                              (local c) (hooks c));;
     call_soon (f_callbacks (finished c));; ret true)).
  repeat (apply keeps_bind; [|intros ?]);
    auto using superseded_put, superseded_call_soon, keeps_ret.
Qed.

Lemma superseded_result_add (j : nat) (cb : callback) :
  keeps (superseded i) (result_add_done_callback j cb).
Proof.
  apply keeps_get_command. intros s c Hc Hs.
  destruct (f_state (result c)) eqn:Er; try by apply superseded_call_soon.
  not_me s c; [congruence|]. by apply superseded_put.
Qed.

Lemma superseded_finished_add (j : nat) (cb : callback) :
  keeps (superseded i) (finished_add_done_callback j cb).
Proof.
  apply keeps_get_command. intros s c Hc Hs.
  destruct (f_state (finished c)) eqn:Er; try by apply superseded_call_soon.
  not_me s c; [congruence|]. by apply superseded_put.
Qed.

Lemma superseded_set_state (j : nat) (st : CommandState) :
  j <> i -> keeps (superseded i) (set_state j st).
Proof.
  intros Hne. apply keeps_get_command. intros s c Hc Hs.
  by apply superseded_put.
Qed.

Lemma superseded_done (j : nat) : keeps (superseded i) (_done j).
Proof.
  apply keeps_get_command. intros s c Hc Hs.
  not_me s c.
  - replace (state c) with Done. done.
  - clear Hc; revert s Hs. apply keeps_bind; [apply keeps_assert|intros _].
    by apply superseded_set_state.
Qed.

Lemma superseded_started (j : nat) :
  j <> i -> keeps (superseded i) (modify (fun s => with_started (started s ++ [j]) s)).
Proof.
  intros Hne s (c & Hc & ? & ? & ? & Hst & Hno). exists c.
  repeat split; try done. cbn. intros [Hin|[->|[]]]%in_app_or; done.
Qed.

Lemma superseded_field (f : Proto -> Proto) :
  (forall s, commands (f s) = commands s) ->
  (forall s, started (f s) = started s) ->
  (forall s, sent (f s) = sent s) ->
  keeps (superseded i) (modify f).
Proof.
  intros Hc Hst Hse s Hs. change (exec (modify f) s) with (f s).
  apply (superseded_frame s); try done.
  - by rewrite Hc.
  - intros line. by rewrite Hse.
Qed.

Lemma superseded_start (j : nat) : keeps (superseded i) (_start j).
Proof.
  apply keeps_get_command. intros s c Hc Hs.
  not_me s c.
  - replace (state c) with Done. done.
  - clear Hc; revert s Hs. apply keeps_assert_then. intros _.
    apply keeps_bind; [by apply superseded_set_state|intros _].
    apply keeps_bind; [by apply superseded_started|intros _].
    apply keeps_try_except; [by apply superseded_run_hook|].
    intros e h. destruct e; intros [= <-]; by apply superseded_run_hook.
Qed.

Lemma superseded_cancel (j : nat) : keeps (superseded i) (_cancel j).
Proof.
  apply keeps_get_command. intros s c Hc Hs.
  not_me s c.
  - replace (state c) with Done. done.
  - clear Hc; revert s Hs. apply keeps_assert_then. intros _.
    apply keeps_bind; [by apply superseded_set_state|intros _].
    by apply superseded_run_hook.
Qed.

Lemma superseded_line_received_command (j : nat) (line : string) :
  keeps (superseded i) (_line_received_command j line).
Proof.
  apply keeps_get_command. intros s c Hc Hs.
  not_me s c.
  - replace (state c) with Done. done.
  - clear Hc; revert s Hs. apply keeps_assert_then. intros _.
    by apply superseded_run_hook.
Qed.

(** The engine's exit leaves a superseded command alone: both its futures
    are resolved, and it is not running. *)
Lemma superseded_handle_exception (exc : exn) :
  keeps (superseded i) (run_hook i (_handle_exception exc)).
Proof.
  intros s Hs. pose proof Hs as (c & Hc & Hst & Hr & Hf & _).
  unfold exec, run_hook. rewrite Hc.
  unfold _handle_exception, bindM, gets, call_exception_handler, modify, ret.
  cbn. rewrite Hr, Hf. cbn.
  destruct Hs as (c' & Hc' & ? & ? & ? & ? & ?). simplify_eq.
  eexists. split; [cbn; apply list_lookup_insert_eq; by eapply lookup_lt_Some|].
  cbn. rewrite app_nil_r. by repeat split.
Qed.

Lemma superseded_engine_terminated (j : nat) (code : Z) :
  keeps (superseded i) (_engine_terminated j code).
Proof.
  destruct (decide (j = i)) as [->|Hne].
  - apply keeps_bind; [apply superseded_handle_exception|intros _].
    apply keeps_get_command. intros s c Hc Hs.
    destruct (superseded_lookup s c Hs Hc) as (-> & _). done.
  - apply keeps_bind; [by apply superseded_run_hook|intros _].
    apply keeps_get_command. intros s c Hc Hs.
    destruct (running (state c)); [by apply superseded_run_hook | done].
Qed.

Lemma superseded_previous_command_finished :
  keeps (superseded i) previous_command_finished.
Proof.
  unfold previous_command_finished.
  apply keeps_bind; [apply keeps_gets|intros cur].
  apply keeps_bind; [destruct cur; [apply superseded_done | apply keeps_ret]|intros _].
  apply keeps_bind; [apply keeps_gets|intros nxt].
  apply keeps_bind; [by apply superseded_field|intros _].
  destruct nxt as [cmd|]; [|apply keeps_ret].
  apply keeps_bind; [apply superseded_result_add|intros _].
  apply keeps_bind; [apply superseded_finished_add|intros _].
  apply superseded_start.
Qed.

Lemma superseded_new_command (h : Hooks E V L) (l : L) :
  keeps (superseded i) (new_command h l).
Proof.
  intros s Hs. apply (superseded_frame s); try done. cbn.
  destruct Hs as (c & Hc & _). rewrite lookup_app_l; [done|].
  by eapply lookup_lt_Some.
Qed.

Lemma superseded_communicate (h : Hooks E V L) (l : L) :
  keeps (superseded i) (communicate h l).
Proof.
  unfold communicate.
  apply keeps_bind; [apply superseded_new_command|intros cmd].
  apply keeps_bind; [apply keeps_gets|intros rc].
  destruct rc as [| |[code|e]]; try apply keeps_raise.
  apply keeps_get_command. intros s c _. revert s.
  apply keeps_assert_then. intros _.
  apply keeps_bind; [apply keeps_gets|intros nxt].
  apply keeps_bind.
  { destruct nxt as [n|]; [|apply keeps_ret].
    apply keeps_bind; [apply superseded_result_cancel|intros _].
    apply keeps_bind; [apply superseded_finished_cancel|intros _].
    apply superseded_done. }
  intros _.
  apply keeps_bind; [by apply superseded_field|intros _].
  apply keeps_bind; [apply keeps_gets|intros cur].
  apply keeps_bind; [|intros _; apply keeps_ret].
  destruct cur as [running_cmd|]; [|apply superseded_previous_command_finished].
  apply keeps_get_command. intros s rc _. revert s.
  destruct (negb (done (f_state (result rc)))).
  { apply keeps_bind; [apply superseded_result_cancel|intros _; apply keeps_ret]. }
  destruct (negb (cancelled (f_state (result rc)))); [apply superseded_cancel|apply keeps_ret].
Qed.

Lemma superseded_connection_lost (code : Z) :
  keeps (superseded i) (connection_lost code).
Proof.
  unfold connection_lost.
  apply keeps_bind; [apply keeps_gets|intros cur].
  apply keeps_bind.
  { destruct cur as [c|]; [|apply keeps_ret].
    apply keeps_bind; [apply superseded_engine_terminated|intros _].
    by apply superseded_field. }
  intros _.
  apply keeps_bind; [apply keeps_gets|intros nxt].
  apply keeps_bind.
  { destruct nxt as [c|]; [|apply keeps_ret].
    apply keeps_bind; [apply superseded_engine_terminated|intros _].
    by apply superseded_field. }
  intros _.
  apply keeps_bind; [apply keeps_gets|intros rc].
  destruct rc; try apply keeps_raise. by apply superseded_field.
Qed.

Lemma superseded_from_loop (m : proto unit) :
  keeps (superseded i) m -> keeps (superseded i) (from_loop m).
Proof.
  intros Hm. apply keeps_try_except; [done|].
  intros e h [= <-]. by apply superseded_field.
Qed.

Lemma superseded_tick : keeps (superseded i) tick.
Proof.
  unfold tick.
  apply keeps_bind; [apply keeps_gets|intros q].
  destruct q as [|cb q]; [apply keeps_ret|].
  apply keeps_bind; [by apply superseded_field|intros _].
  apply superseded_from_loop. destruct cb as [cmd|]; cbn.
  - apply keeps_get_command. intros s c _. revert s.
    destruct (cancelled (f_state (result c))); [apply superseded_cancel|apply keeps_ret].
  - apply superseded_previous_command_finished.
Qed.

Lemma superseded_step (s : Proto) (e : event E V L) :
  superseded i s -> superseded i (step s e).
Proof.
  destruct e as [h l|cmd| |line|code]; cbn.
  - apply superseded_communicate.
  - apply superseded_result_cancel.
  - apply superseded_tick.
  - apply superseded_from_loop. unfold _line_received.
    apply keeps_bind; [apply keeps_gets|intros cur].
    destruct cur; [apply superseded_line_received_command|apply keeps_ret].
  - apply superseded_from_loop, superseded_connection_lost.
Qed.

(** Whatever happens later, a superseded command never runs. *)
Lemma superseded_run (s : Proto) (es : list (event E V L)) :
  superseded i s -> superseded i (run s es).
Proof.
  unfold run. revert s. induction es as [|e es IH]; intros s Hs; cbn; [done|].
  by apply IH, superseded_step.
Qed.

End Superseded.

(** *** What the methods of commands leave alone *)

Section Control.
Variable x : option nat * option nat * fstate Z.

Abbreviation untouched := (untouched (E:=E) (V:=V) (L:=L) x).

Lemma untouched_put (j : nat) (c : Cmd) : keeps untouched (put_command j c).
Proof. by intros s. Qed.

Lemma untouched_call_soon (cbs : list callback) : keeps untouched (call_soon cbs).
Proof. by intros s. Qed.

Lemma untouched_run_hook {A : Type} (j : nat) (h : hook E V L A) :
  keeps untouched (run_hook j h).
Proof.
  intros s Hs. unfold exec, run_hook.
  destruct (commands s !! j) as [c|]; [|done]. by destruct (h _).
Qed.

Lemma untouched_field (f : Proto -> Proto) :
  (forall s, control (f s) = control s) -> keeps untouched (modify f).
Proof. intros Hf s Hs. unfold untouched. change (exec (modify f) s) with (f s). by rewrite Hf. Qed.

Ltac untouched_go :=
  repeat first
    [ apply keeps_ret | apply keeps_raise | apply keeps_gets | apply keeps_assert
    | apply untouched_put | apply untouched_call_soon | apply untouched_run_hook
    | by apply untouched_field
    | apply keeps_get_command_any; intros ?
    | apply keeps_bind; [|intros ?]
    | apply keeps_try_except; [|let e := fresh in intros e ? ?; destruct e; simplify_eq]
    | match goal with
      | |- Dispatch.keeps _ (match ?v with _ => _ end) => destruct v
      end ].

Lemma untouched_result_cancel (j : nat) : keeps untouched (result_cancel j).
Proof. unfold result_cancel. untouched_go. Qed.

Lemma untouched_finished_cancel (j : nat) : keeps untouched (finished_cancel j).
Proof. unfold finished_cancel. untouched_go. Qed.

Lemma untouched_result_add (j : nat) (cb : callback) :
  keeps untouched (result_add_done_callback j cb).
Proof. unfold result_add_done_callback. untouched_go. Qed.

Lemma untouched_finished_add (j : nat) (cb : callback) :
  keeps untouched (finished_add_done_callback j cb).
Proof. unfold finished_add_done_callback. untouched_go. Qed.

Lemma untouched_done (j : nat) : keeps untouched (_done j).
Proof. unfold _done, set_state. untouched_go. Qed.

Lemma untouched_start (j : nat) : keeps untouched (_start j).
Proof. unfold _start, set_state. untouched_go. Qed.

Lemma untouched_cancel (j : nat) : keeps untouched (_cancel j).
Proof. unfold _cancel, set_state. untouched_go. Qed.

Lemma untouched_line_received_command (j : nat) (line : string) :
  keeps untouched (_line_received_command j line).
Proof. unfold _line_received_command. untouched_go. Qed.

Lemma untouched_engine_terminated (j : nat) (code : Z) :
  keeps untouched (_engine_terminated j code).
Proof. unfold _engine_terminated. untouched_go. Qed.

End Control.

(** *** The overlap is kept while the first command is current *)

Lemma run_hook_frame {A : Type} (j : nat) (h : hook E V L A) (s : Proto) :
  let s' := exec (run_hook j h) s in
  control s' = control s /\ started s' = started s /\
  length (commands s') = length (commands s) /\
  (forall i, i <> j -> commands s' !! i = commands s !! i) /\
  (forall c, commands s !! j = Some c ->
     exists c', commands s' !! j = Some c' /\ state c' = state c /\ hooks c' = hooks c) /\
  (forall i line, In (i, line) (sent s') -> In (i, line) (sent s) \/ i = j).
Proof.
  unfold exec, run_hook. destruct (commands s !! j) as [c|] eqn:Ec; cbn.
  - destruct (h _) as [f' r]. cbn. split_and!; [done|done|..].
    + apply length_insert.
    + intros i Hi. by rewrite list_lookup_insert_ne.
    + intros c0 [= <-]. eexists.
      split; [apply list_lookup_insert_eq; by eapply lookup_lt_Some | done].
    + intros i line [Hin|Hin]%in_app_or; [by left|right].
      by apply in_map_iff in Hin as (x & [= <- _] & _).
  - split_and!; auto. intros c0 [=].
Qed.

(** *** Statements about one command *)

Section Alone.
Variables (n : nat) (base : Proto).

Abbreviation alone := (alone (E:=E) (V:=V) (L:=L) n).

Lemma alone_put (st : CommandState) (stl : list nat) (c : Cmd) :
  state c = st -> keeps (alone st stl base) (put_command n c).
Proof.
  intros Hc s (Hctl & Hst & Hlen & Hoth & (c0 & Hc0 & _) & Hsent).
  split_and!; try done.
  - cbn. by rewrite length_insert.
  - intros i Hi. cbn. rewrite list_lookup_insert_ne by done. by apply Hoth.
  - exists c. split; [|done]. cbn. apply list_lookup_insert_eq. by eapply lookup_lt_Some.
Qed.

Lemma alone_field (st : CommandState) (stl : list nat) (f : Proto -> Proto) :
  (forall s, commands (f s) = commands s) ->
  (forall s, control (f s) = control s) ->
  (forall s, started (f s) = started s) ->
  (forall s, sent (f s) = sent s) ->
  keeps (alone st stl base) (modify f).
Proof.
  intros H1 H2 H3 H4 s Hs. unfold alone, Dispatch.alone.
  change (exec (modify f) s) with (f s). by rewrite H1, H2, H3, H4.
Qed.

Lemma alone_call_soon (st : CommandState) (stl : list nat) (cbs : list callback) :
  keeps (alone st stl base) (call_soon cbs).
Proof. by apply alone_field. Qed.

Lemma alone_run_hook {A : Type} (st : CommandState) (stl : list nat) (h : hook E V L A) :
  keeps (alone st stl base) (run_hook n h).
Proof.
  intros s (Hctl & Hst & Hlen & Hoth & (c0 & Hc0 & Hs0) & Hsent).
  destruct (run_hook_frame n h s) as (F1 & F2 & F3 & F4 & F5 & F6).
  destruct (F5 c0 Hc0) as (c' & Hc' & Hst' & _).
  split_and!; try congruence.
  - intros i Hi. rewrite F4 by done. by apply Hoth.
  - exists c'. split; congruence.
  - intros i line [Hin|Hin]%F6; [by apply Hsent|by right].
Qed.

Lemma alone_result_add (st : CommandState) (stl : list nat) (cb : callback) (s : Proto) :
  alone st stl base s ->
  exists s1, result_add_done_callback n cb s = (s1, Ok tt) /\ alone st stl base s1.
Proof.
  intros Hs. pose proof Hs as (_ & _ & _ & _ & (c & Hc & Hst) & _).
  unfold result_add_done_callback, bindM, get_command. rewrite Hc.
  destruct (f_state (result c)); (eexists; split; [reflexivity|]).
  - by apply alone_put.
  - by apply alone_call_soon.
  - by apply alone_call_soon.
Qed.

Lemma alone_finished_add (st : CommandState) (stl : list nat) (cb : callback) (s : Proto) :
  alone st stl base s ->
  exists s1, finished_add_done_callback n cb s = (s1, Ok tt) /\ alone st stl base s1.
Proof.
  intros Hs. pose proof Hs as (_ & _ & _ & _ & (c & Hc & Hst) & _).
  unfold finished_add_done_callback, bindM, get_command. rewrite Hc.
  destruct (f_state (finished c)); (eexists; split; [reflexivity|]).
  - by apply alone_put.
  - by apply alone_call_soon.
  - by apply alone_call_soon.
Qed.

(** A new command that is started is [Active], whatever its [start] does. *)
Lemma alone_start (stl : list nat) (s : Proto) :
  alone New stl base s -> alone Active (stl ++ [n]) base (exec (_start n) s).
Proof.
  intros Hs. pose proof Hs as (Hctl & Hstl & Hlen & Hoth & (c & Hc & Hst) & Hsent).
  unfold _start.
  rewrite (exec_ok_bind (get_command n) _ s s c) by (unfold get_command; by rewrite Hc).
  rewrite Hst, bool_decide_eq_true_2 by done.
  rewrite (exec_ok_bind (assert_ true _) _ s s tt) by done.
  unfold set_state.
  set (c1 := mkCommand Active (result c) (finished c) (local c) (hooks c)).
  rewrite (exec_ok_bind (bindM (get_command n) _) _ s
             (with_commands (<[n := c1]> (commands s)) s) tt)
    by (unfold bindM, get_command; by rewrite Hc).
  change (exec (bindM (modify ?f) ?g) ?s1) with (exec (g tt) (f s1)). cbv beta.
  set (s2 := with_started _ _).
  assert (alone Active (stl ++ [n]) base s2) as Hs2.
  { split_and!; try done.
    - cbn. by rewrite Hstl.
    - cbn. by rewrite length_insert.
    - intros i Hi. cbn. rewrite list_lookup_insert_ne by done. by apply Hoth.
    - exists c1. split; [|done]. cbn. apply list_lookup_insert_eq. by eapply lookup_lt_Some. }
  revert Hs2. generalize s2. apply keeps_try_except; [apply alone_run_hook|].
  intros e h He. destruct e; simplify_eq; apply alone_run_hook.
Qed.

End Alone.

Lemma alone_refl (n : nat) (s : Proto) (c : Cmd) :
  commands s !! n = Some c -> Dispatch.alone n (state c) (started s) s s.
Proof. intros Hc. split_and!; try done; eauto. Qed.


Section Overlap.
Variables (b : nat) (st0 : list nat).

Abbreviation overlap := (overlap (E:=E) (V:=V) (L:=L) b st0).

(** Changes that touch the first command only, and leave it running. *)
Lemma overlap_touch_first (k : nat) (s s' : Proto) :
  overlap k s ->
  length (commands s') = length (commands s) ->
  (forall j, j <> b -> commands s' !! j = commands s !! j) ->
  (exists c, commands s' !! b = Some c /\ running (state c) = true) ->
  control s' = control s -> started s' = started s ->
  (forall j line, In (j, line) (sent s') -> In (j, line) (sent s) \/ j = b) ->
  overlap k s'.
Proof.
  intros [] Hlen Hoth Hb [= Hc Hn Hr] Hst Hsent. split; try congruence.
  - intros j c Hj. rewrite Hoth by lia. eauto.
  - intros i Hi1 Hi2. apply (superseded_frame i s); auto.
    + apply Hoth. lia.
    + intros line Hin. destruct (Hsent _ _ Hin); [done|lia].
  - intros Hk. rewrite Hoth by lia. auto.
  - intros j line Hin. destruct (Hsent _ _ Hin); [eauto|lia].
Qed.

Lemma overlap_run_hook {A : Type} (k : nat) (h : hook E V L A) :
  keeps (overlap k) (run_hook b h).
Proof.
  intros s Hs. destruct (run_hook_frame b h s) as (Hc & Hst & Hlen & Hoth & Hb & Hsent).
  apply (overlap_touch_first k s); auto.
  destruct (ov_first _ _ _ _ Hs) as (c & Hc0 & Hrun).
  destruct (Hb c Hc0) as (c' & ? & Hst' & _). exists c'. by rewrite Hst'.
Qed.

Lemma overlap_put_first (k : nat) (c : Cmd) :
  running (state c) = true -> keeps (overlap k) (put_command b c).
Proof.
  intros Hrun s Hs. apply (overlap_touch_first k s); auto; cbn.
  - apply length_insert.
  - intros j Hj. by rewrite list_lookup_insert_ne.
  - exists c. split; [|done]. apply list_lookup_insert_eq.
    destruct (ov_first _ _ _ _ Hs) as (c0 & Hc0 & _). by eapply lookup_lt_Some.
Qed.

Lemma overlap_field (k : nat) (f : Proto -> Proto) :
  (forall s, commands (f s) = commands s) ->
  (forall s, control (f s) = control s) ->
  (forall s, started (f s) = started s) ->
  (forall s, sent (f s) = sent s) ->
  keeps (overlap k) (modify f).
Proof.
  intros Hc Hctl Hst Hse s Hs. change (exec (modify f) s) with (f s).
  apply (overlap_touch_first k s); rewrite ?Hc, ?Hst, ?Hse; auto.
  apply (ov_first _ _ _ _ Hs).
Qed.

(** Only the first command can be [Active]. *)
Lemma overlap_active (k : nat) (s : Proto) (j : nat) (c : Cmd) :
  overlap k s -> commands s !! j = Some c -> state c = Active -> j = b.
Proof.
  intros Hs Hc Hact. pose proof (lookup_lt_Some _ _ _ Hc) as Hlt.
  rewrite (ov_length _ _ _ _ Hs) in Hlt.
  destruct (decide (j = b)) as [|Hne]; [done|exfalso].
  destruct (decide (j < b)) as [Hj|Hj].
  { pose proof (ov_old _ _ _ _ Hs j c Hj Hc). congruence. }
  destruct (decide (j < b + k - 1)) as [Hm|Hm].
  { destruct (ov_mid _ _ _ _ Hs j) as (c' & Hc' & Hd & _); [lia|lia|]. simplify_eq. congruence. }
  destruct (ov_last _ _ _ _ Hs) as (c' & Hc' & Hn & _); [lia|].
  replace j with (b + k - 1) in Hc by lia. simplify_eq. congruence.
Qed.

(** Cancelling the result of any command keeps the overlap. *)
Lemma overlap_cancelled_other (k : nat) (s : Proto) (j : nat) (c : Cmd) :
  overlap k s -> commands s !! j = Some c ->
  overlap k (exec (put_command j (mkCommand (state c) (mkFuture Cancelled [])
                                            (finished c) (local c) (hooks c))) s).
Proof.
  intros Hs Hc. destruct (decide (j = b)) as [->|Hne].
  { apply overlap_put_first; [|done]. cbn.
    destruct (ov_first _ _ _ _ Hs) as (c0 & ? & ?). by simplify_eq. }
  pose proof (lookup_lt_Some _ _ _ Hc) as Hlt.
  destruct Hs. split; try done; cbn.
  - by rewrite length_insert.
  - destruct ov_first0 as (c0 & ? & ?). exists c0.
    by rewrite list_lookup_insert_ne.
  - intros j' c' Hj'. destruct (decide (j' = j)) as [->|].
    + rewrite list_lookup_insert_eq by done. intros [= <-]. cbn. eauto.
    + rewrite list_lookup_insert_ne by done. eauto.
  - intros i Hi1 Hi2. destruct (ov_mid0 i Hi1 Hi2) as (c' & Hc' & ? & ? & ? & ? & ?).
    destruct (decide (i = j)) as [->|].
    + simplify_eq. eexists. split; [cbn; by apply list_lookup_insert_eq|done].
    + exists c'. cbn. by rewrite list_lookup_insert_ne.
  - intros Hk. destruct (ov_last0 Hk) as (c' & Hc' & ? & ? & ? & ?).
    destruct (decide (b + k - 1 = j)) as [<-|].
    + simplify_eq. eexists. split; [by apply list_lookup_insert_eq|]. cbn. auto.
    + exists c'. by rewrite list_lookup_insert_ne.
Qed.

Lemma overlap_call_soon (k : nat) (cbs : list callback) :
  keeps (overlap k) (call_soon cbs).
Proof. by apply overlap_field. Qed.

Lemma overlap_result_cancel (k : nat) (j : nat) :
  keeps (overlap k) (result_cancel j).
Proof.
  apply keeps_get_command. intros s c Hc Hs.
  destruct (f_state (result c)); try done.
  change (overlap k (exec (call_soon (f_callbacks (result c));; ret true)
    (exec (put_command j (mkCommand (state c) (mkFuture Cancelled [])
                                    (finished c) (local c) (hooks c))) s))).
  apply keeps_bind; [apply overlap_call_soon|intros; apply keeps_ret|].
  by apply overlap_cancelled_other.
Qed.

Lemma overlap_cancel (k : nat) (j : nat) : keeps (overlap k) (_cancel j).
Proof.
  apply keeps_get_command. intros s c Hc Hs.
  destruct (decide (state c = Active)) as [Hact|Hact].
  - assert (j = b) as -> by eauto using overlap_active.
    clear Hc. revert s Hs. apply keeps_assert_then. intros _.
    apply keeps_bind; [|intros _; apply overlap_run_hook].
    apply keeps_get_command. intros s c' _. by apply overlap_put_first.
  - by rewrite bool_decide_eq_false_2.
Qed.

Lemma overlap_line_received (k : nat) (line : string) :
  keeps (overlap k) (_line_received line).
Proof.
  intros s Hs. unfold _line_received.
  change (overlap k (exec (match command s with
                           | Some c => _line_received_command c line
                           | None => ret tt
                           end) s)).
  rewrite (ov_command _ _ _ _ Hs). revert s Hs.
  apply keeps_get_command. intros s c _. revert s.
  apply keeps_assert_then. intros _. apply overlap_run_hook.
Qed.

Lemma overlap_run_cancel_callback (k : nat) (j : nat) :
  keeps (overlap k) (run_callback (cancel_if_cancelled j)).
Proof.
  apply keeps_get_command. intros s c _. revert s.
  destruct (cancelled (f_state (result c))); [apply overlap_cancel|apply keeps_ret].
Qed.

Lemma overlap_engine_terminated (k : nat) (code : Z) :
  keeps (overlap k) (_engine_terminated b code).
Proof.
  apply keeps_bind; [apply overlap_run_hook|intros _].
  apply keeps_get_command. intros s c _. revert s.
  destruct (running (state c)); [apply overlap_run_hook|apply keeps_ret].
Qed.

(** The first command is marked [Done] without an error. *)
Lemma overlap_done_first (k : nat) (s : Proto) :
  overlap k s ->
  exists c, commands s !! b = Some c /\ running (state c) = true /\
    _done b s =
      (with_commands (<[b := mkCommand Done (result c) (finished c) (local c) (hooks c)]>
                        (commands s)) s, Ok tt).
Proof.
  intros Hs. destruct (ov_first _ _ _ _ Hs) as (c & Hc & Hrun).
  exists c. split; [done|]. split; [done|].
  unfold _done, set_state, bindM, get_command, put_command, modify. rewrite Hc.
  destruct (state c); try done;
    (rewrite bool_decide_eq_false_2 by done); cbn; by rewrite Hc.
Qed.

Lemma control_kept {A : Type} (m : proto A) (s : Proto) :
  (forall x, keeps (untouched x) m) -> control (exec m s) = control s.
Proof. intros Hm. by apply (Hm (control s) s). Qed.

(** What [previous_command_finished] does once the current command is
    marked [Done]: it leaves [command] at what [next_command] was. *)
Lemma promote_control (nxt : option nat) (s : Proto) :
  command
    (exec (match nxt with
           | Some cmd =>
               result_add_done_callback cmd (cancel_if_cancelled cmd);;
               finished_add_done_callback cmd previous_command_finished_cb;;
               _start cmd
           | None => ret tt
           end) (with_current nxt None s)) = nxt.
Proof.
  set (m := match nxt with Some _ => _ | None => _ end).
  assert (control (exec m (with_current nxt None s))
          = control (with_current nxt None s)) as Hctl.
  { apply control_kept. intros x. subst m. destruct nxt; [|apply keeps_ret].
    apply keeps_bind; [apply untouched_result_add|intros _].
    apply keeps_bind; [apply untouched_finished_add|intros _].
    apply untouched_start. }
  by injection Hctl.
Qed.

(** When [previous_command_finished] runs, the first command is no longer
    the current one. *)
Lemma overlap_left (k : nat) (s : Proto) :
  overlap k s ->
  command (exec previous_command_finished s) =
    if decide (k = 1) then None else Some (b + k - 1).
Proof.
  intros Hs. destruct (overlap_done_first k s Hs) as (c & Hc & Hrun & Hdone).
  unfold previous_command_finished.
  change (exec (bindM (gets command) ?k) s) with (exec (k (command s)) s).
  rewrite (ov_command _ _ _ _ Hs).
  rewrite (exec_ok_bind _ _ _ _ _ Hdone).
  set (s1 := with_commands _ s).
  change (exec (bindM (gets next_command) ?k) s1) with (exec (k (next_command s1)) s1).
  change (next_command s1) with (next_command s). rewrite (ov_next _ _ _ _ Hs).
  apply promote_control.
Qed.

Lemma keeps_command {A : Type} (m : proto A) (y : option nat) :
  (forall x, keeps (untouched x) m) -> keeps (fun s => command s = y) m.
Proof.
  intros Hm s Hs. pose proof (control_kept m s Hm) as [= Hc _ _]. congruence.
Qed.

(** If the engine exits during the overlap, either a method of the first
    command raises and the driver is left as it was, or the first command is
    no longer current. *)
Lemma overlap_connection_lost (k : nat) (code : Z) (s : Proto) :
  overlap k s ->
  overlap k (exec (connection_lost code) s) \/
  command (exec (connection_lost code) s) = None.
Proof.
  intros Hs. unfold connection_lost.
  change (exec (bindM (gets command) ?k) s) with (exec (k (command s)) s).
  rewrite (ov_command _ _ _ _ Hs).
  pose proof (overlap_engine_terminated k code s Hs) as Hs1.
  unfold exec in Hs1.
  destruct (_engine_terminated b code s) as [s1 [[]|e]] eqn:HX; cbn in Hs1.
  - right.
    erewrite exec_ok_bind; [|unfold bindM; rewrite HX; reflexivity].
    set (rest := bindM (gets next_command) _).
    assert (keeps (fun s => command s = None) rest) as Hrest; [|by apply Hrest].
    subst rest.
    apply keeps_bind; [apply keeps_gets|intros nxt].
    apply keeps_bind.
    { destruct nxt as [n|]; [|apply keeps_ret].
      apply keeps_bind; [apply keeps_command; intros x; apply untouched_engine_terminated|intros _].
      by intros s'. }
    intros _. apply keeps_bind; [apply keeps_gets|intros rc].
    destruct rc; try apply keeps_raise. by intros s'.
  - left. erewrite exec_raise_bind; [exact Hs1|]. unfold bindM. by rewrite HX.
Qed.

Lemma overlap_from_loop (k : nat) (m : proto unit) (s : Proto) (Q : Proto -> Prop) :
  Q (exec m s) ->
  (forall s' e, Q s' -> Q (with_reported (reported s' ++ [e]) s')) ->
  Q (exec (from_loop m) s).
Proof.
  intros Hm HQ. unfold exec, from_loop, try_except in *.
  destruct (m s) as [s' [a|e]]; cbn in *; [done|]. by apply HQ.
Qed.

Lemma overlap_reported (k : nat) (s : Proto) (e : exn) :
  overlap k s -> overlap k (with_reported (reported s ++ [e]) s).
Proof.
  intros Hs. by apply (overlap_field k (fun s => with_reported (reported s ++ [e]) s)).
Qed.

(** One more request: what the driver looks like once the waiting command,
    if there was one, has been superseded and the new command waits. *)
Lemma overlap_extend (k : nat) (s s3 : Proto) (cnew : Cmd) :
  overlap k s ->
  length (commands s3) = b + k + 1 ->
  control s3 = (Some b, Some (b + k), Pending) ->
  started s3 = started s -> sent s3 = sent s ->
  (forall i, i < b + k -> (k = 1 \/ i <> b + k - 1) ->
     commands s3 !! i = commands s !! i) ->
  (k <> 1 -> exists c2, commands s3 !! (b + k - 1) = Some c2 /\ state c2 = Done /\
                f_state (result c2) = Cancelled /\ f_state (finished c2) = Cancelled) ->
  commands s3 !! (b + k) = Some cnew ->
  state cnew = New -> result cnew = mkFuture Pending [] ->
  finished cnew = mkFuture Pending [] ->
  overlap (S k) s3.
Proof.
  intros Hs Hlen [= Hc Hn Hr] Hst Hsent Hsame Hold Hnew HN HR HF.
  pose proof (ov_k _ _ _ _ Hs) as Hk.
  assert (forall i, i <= b -> commands s3 !! i = commands s !! i) as Hlow.
  { intros i Hi. apply Hsame; [lia|].
    destruct (decide (k = 1)); [by left|right; lia]. }
  split.
  - lia.
  - lia.
  - done.
  - rewrite Hn. destruct (decide (S k = 1)); [lia|]. f_equal. lia.
  - done.
  - rewrite Hst. apply (ov_started _ _ _ _ Hs).
  - apply (ov_st0 _ _ _ _ Hs).
  - rewrite Hlow by lia. apply (ov_first _ _ _ _ Hs).
  - intros j c Hj. rewrite Hlow by lia. by apply (ov_old _ _ _ _ Hs).
  - intros i Hi1 Hi2.
    assert (~ In i (started s3) /\ forall line, ~ In (i, line) (sent s3)) as [Hns Hnt].
    { rewrite Hst, Hsent, (ov_started _ _ _ _ Hs). split.
      - intros [Hin|[->|[]]]%in_app_or; [|lia].
        pose proof (ov_st0 _ _ _ _ Hs) as Hst0. rewrite Forall_forall in Hst0.
        apply list_elem_of_In, Hst0 in Hin. lia.
      - intros line Hin. apply (ov_sent _ _ _ _ Hs) in Hin. lia. }
    destruct (decide (i = b + k - 1)) as [->|Hne].
    + destruct Hold as (c2 & ? & ? & ? & ?); [lia|]. by exists c2.
    + destruct (ov_mid _ _ _ _ Hs i) as (c & Hci & ? & ? & ? & _); [lia|lia|].
      exists c. rewrite Hsame by (lia || auto). done.
  - intros _. exists cnew. replace (b + S k - 1) with (b + k) by lia.
    rewrite HR, HF. split_and!; auto.
  - intros j line. rewrite Hsent. apply (ov_sent _ _ _ _ Hs).
Qed.

(** The waiting command is superseded: both its futures are cancelled and it
    is marked [Done], without an error and without a callback to run. *)
Lemma supersede_run (s1 : Proto) (n : nat) (c : Cmd) :
  commands s1 !! n = Some c -> state c = New ->
  finished c = mkFuture Pending [] -> f_callbacks (result c) = [] ->
  (f_state (result c) = Pending \/ f_state (result c) = Cancelled) ->
  exists s2,
    (result_cancel n;; finished_cancel n;; _done n) s1 = (s2, Ok tt) /\
    control s2 = control s1 /\ started s2 = started s1 /\ sent s2 = sent s1 /\
    length (commands s2) = length (commands s1) /\
    (forall i, i <> n -> commands s2 !! i = commands s1 !! i) /\
    exists c2, commands s2 !! n = Some c2 /\ state c2 = Done /\
               f_state (result c2) = Cancelled /\ f_state (finished c2) = Cancelled.
Proof.
  intros Hc Hst Hf Hcb Hr. pose proof (lookup_lt_Some _ _ _ Hc) as Hlt.
  destruct c as [st [rs rcb] fin lo hk]. cbn in *. subst st fin rcb.
  unfold result_cancel, finished_cancel, _done, set_state, bindM, get_command,
    put_command, call_soon, modify, ret.
  rewrite Hc. cbn.
  destruct Hr as [-> | ->]; cbn;
    repeat first
      [ rewrite list_lookup_insert_eq by (rewrite ?length_insert; done)
      | rewrite Hc
      | rewrite bool_decide_eq_false_2 by done
      | progress cbn ];
    (eexists; split; [reflexivity|]; cbn;
     split_and!; try done;
     [ by rewrite !length_insert
     | intros i Hi; by rewrite !list_lookup_insert_ne
     | eexists; split;
       [apply list_lookup_insert_eq; rewrite ?length_insert; done | done] ]).
Qed.

Lemma overlap_tail (k : nat) (cmd : nat) :
  keeps (overlap k)
    ((rc <- get_command b;;
      if negb (done (f_state (result rc))) then result_cancel b;; ret tt
      else if negb (cancelled (f_state (result rc))) then _cancel b
      else ret tt);;
     ret cmd).
Proof.
  apply keeps_bind; [|intros _; apply keeps_ret].
  apply keeps_get_command. intros s rc _. revert s.
  destruct (negb (done (f_state (result rc)))).
  { apply keeps_bind; [apply overlap_result_cancel|intros _; apply keeps_ret]. }
  destruct (negb (cancelled (f_state (result rc)))); [apply overlap_cancel|apply keeps_ret].
Qed.

(** A request made during the overlap supersedes the waiting command and
    waits in its place. *)
Lemma overlap_communicate (k : nat) (h : Hooks E V L) (l : L) (s : Proto) :
  overlap k s -> overlap (S k) (exec (communicate h l) s).
Proof.
  intros Hs. pose proof (ov_k _ _ _ _ Hs) as Hk.
  pose proof (ov_length _ _ _ _ Hs) as Hlen.
  unfold communicate.
  set (cnew := mkCommand New (mkFuture Pending []) (mkFuture Pending []) l h).
  set (s1 := with_commands (commands s ++ [cnew]) s).
  rewrite (exec_ok_bind _ _ s s1 (length (commands s))) by reflexivity.
  rewrite Hlen.
  change (exec (bindM (gets returncode) ?k) s1) with (exec (k (returncode s1)) s1).
  change (returncode s1) with (returncode s). rewrite (ov_returncode _ _ _ _ Hs).
  assert (commands s1 !! (b + k) = Some cnew) as Hnew.
  { cbn. rewrite lookup_app_r by lia. by replace (b + k - length (commands s)) with 0 by lia. }
  assert (forall i, i < b + k -> commands s1 !! i = commands s !! i) as Hlow.
  { intros i Hi. cbn. by rewrite lookup_app_l by lia. }
  rewrite (exec_ok_bind (get_command (b + k)) _ s1 s1 cnew)
    by (unfold get_command; by rewrite Hnew).
  rewrite (exec_ok_bind (assert_ _ _) _ s1 s1 tt) by done.
  change (exec (bindM (gets next_command) ?k) s1) with (exec (k (next_command s1)) s1).
  change (next_command s1) with (next_command s). rewrite (ov_next _ _ _ _ Hs).
  destruct (decide (k = 1)) as [->|Hk1].
  - rewrite (exec_ok_bind (ret tt) _ s1 s1 tt) by done.
    change (exec (bindM (modify ?f) ?k) s1) with (exec (k tt) (f s1)); cbv beta.
    set (s3 := with_current _ _ s1).
    change (exec (bindM (gets command) ?k) s3) with (exec (k (command s3)) s3).
    change (command s3) with (command s). rewrite (ov_command _ _ _ _ Hs).
    apply overlap_tail.
    apply (overlap_extend 1 s s3 cnew); try done.
    + cbn. rewrite length_app. cbn. lia.
    + unfold control. cbn. by rewrite (ov_command _ _ _ _ Hs), (ov_returncode _ _ _ _ Hs).
    + intros i Hi _. by apply Hlow.
  - destruct (ov_last _ _ _ _ Hs Hk1) as (c & Hc & Hst & Hf & Hcb & Hr).
    destruct (supersede_run s1 (b + k - 1) c) as
      (s2 & Hrun & Hctl & Hstd & Hsent & Hlen2 & Hoth & c2 & Hc2 & Hd & Hrc & Hfc);
      try done.
    { rewrite Hlow by lia. done. }
    rewrite (exec_ok_bind _ _ s1 s2 tt Hrun).
    change (exec (bindM (modify ?f) ?k) s2) with (exec (k tt) (f s2)); cbv beta.
    set (s3 := with_current _ _ s2).
    change (exec (bindM (gets command) ?k) s3) with (exec (k (command s3)) s3).
    injection Hctl as Hcmd Hnxt Hrcode.
    change (command s3) with (command s2). rewrite Hcmd.
    change (command s1) with (command s). rewrite (ov_command _ _ _ _ Hs).
    apply overlap_tail.
    apply (overlap_extend k s s3 cnew); try done.
    + cbn. rewrite Hlen2. cbn. rewrite length_app. cbn. lia.
    + unfold control. cbn. rewrite Hcmd, Hrcode. cbn.
      by rewrite (ov_command _ _ _ _ Hs), (ov_returncode _ _ _ _ Hs).
    + intros i Hi [?|Hne]; [done|]. cbn. rewrite Hoth by done. by apply Hlow.
    + intros _. exists c2. done.
    + cbn. rewrite Hoth by lia. done.
Qed.

(** The number of requests made once an event is handled. *)
Lemma overlap_step (k : nat) (s : Proto) (e : event E V L) :
  overlap k s -> command (step s e) = Some b ->
  overlap (requests [e] + k) (step s e).
Proof.
  intros Hs Hb. destruct e as [h l|j| |line|code]; cbn [requests step Nat.add] in *.
  - by apply overlap_communicate.
  - by apply overlap_result_cancel.
  - revert Hb. unfold tick.
    change (exec (bindM (gets ready) ?f) s) with (exec (f (ready s)) s).
    destruct (ready s) as [|cb q]; [done|].
    change (exec (bindM (modify ?f) ?g) s) with (exec (g tt) (f s)).
    assert (overlap k (with_ready q s)) as Hs1.
    { by apply (overlap_field k (with_ready q)). }
    revert Hs1. generalize (with_ready q s). clear s Hs. intros s Hs.
    destruct cb as [j|]; cbn [run_callback].
    + intros _. apply (overlap_from_loop k); [|by apply overlap_reported].
      by apply overlap_run_cancel_callback.
    + intros Hb. exfalso.
      assert (command (exec (from_loop previous_command_finished) s) =
              if decide (k = 1) then None else Some (b + k - 1)) as Hc.
      { apply (overlap_from_loop k); [by apply overlap_left|done]. }
      rewrite Hc in Hb. pose proof (ov_k _ _ _ _ Hs).
      destruct (decide (k = 1)); [done|]. injection Hb. lia.
  - apply (overlap_from_loop k); [|by apply overlap_reported].
    by apply overlap_line_received.
  - assert (overlap k (exec (from_loop (connection_lost code)) s) \/
            command (exec (from_loop (connection_lost code)) s) = None) as [H|H].
    { apply (overlap_from_loop k); [by apply overlap_connection_lost|].
      intros s' e' [H|H]; [left; by apply overlap_reported|by right]. }
    + done.
    + by rewrite H in Hb.
Qed.

Lemma requests_app (es1 es2 : list (event E V L)) :
  requests (es1 ++ es2) = requests es1 + requests es2.
Proof.
  induction es1 as [|e es1 IH]; [done|]. destruct e; cbn; by rewrite ?IH.
Qed.

Lemma overlap_run (es : list (event E V L)) (k : nat) (s : Proto) :
  overlap k s -> stays_current b s es -> overlap (requests es + k) (run s es).
Proof.
  revert k s. induction es as [|e es IH]; intros k s Hs Hes; [done|].
  destruct Hes as [Hb Hes]. cbn [run fold_left].
  pose proof (overlap_step k s e Hs Hb) as H1.
  apply IH in H1; [|done].
  replace (requests (e :: es) + k) with (requests es + (requests [e] + k)); [done|].
  change (e :: es) with ([e] ++ es). rewrite requests_app. lia.
Qed.

Lemma exec_bind_ret {A B : Type} (m : proto A) (x : B) (s : Proto) :
  exec (bindM m (fun _ => ret x)) s = exec m s.
Proof. unfold exec, bindM. by destruct (m s) as [s' [a|e]]. Qed.

(** What [previous_command_finished] does with the command it makes
    current. *)
Lemma alone_promote (n : nat) (stl : list nat) (base s : Proto) :
  Dispatch.alone n New stl base s ->
  Dispatch.alone n Active (stl ++ [n]) base
    (exec (result_add_done_callback n (cancel_if_cancelled n);;
           finished_add_done_callback n previous_command_finished_cb;;
           _start n) s).
Proof.
  intros Hs.
  destruct (alone_result_add n base New stl (cancel_if_cancelled n) s Hs) as (s1 & H1 & Hs1).
  rewrite (exec_ok_bind _ _ _ _ _ H1).
  destruct (alone_finished_add n base New stl previous_command_finished_cb s1 Hs1)
    as (s2 & H2 & Hs2).
  rewrite (exec_ok_bind _ _ _ _ _ H2).
  by apply alone_start.
Qed.

(** The first request made at rest starts its command at once. *)
Lemma overlap_begin (h : Hooks E V L) (l : L) (s0 : Proto) :
  idle s0 -> b = length (commands s0) -> st0 = started s0 ->
  overlap 1 (exec (communicate h l) s0).
Proof.
  intros (Hcmd & Hnxt & Hrc & Hdone & Hstd & Hsent) Hb Hst0.
  unfold communicate.
  set (cnew := mkCommand New (mkFuture Pending []) (mkFuture Pending []) l h).
  set (s1 := with_commands (commands s0 ++ [cnew]) s0).
  rewrite (exec_ok_bind _ _ s0 s1 (length (commands s0))) by reflexivity.
  rewrite <- Hb.
  change (exec (bindM (gets returncode) ?k) s1) with (exec (k (returncode s1)) s1).
  change (returncode s1) with (returncode s0). rewrite Hrc.
  assert (commands s1 !! b = Some cnew) as Hnew.
  { cbn. rewrite lookup_app_r by lia. by replace (b - length (commands s0)) with 0 by lia. }
  assert (forall i, i < b -> commands s1 !! i = commands s0 !! i) as Hlow.
  { intros i Hi. cbn. by rewrite lookup_app_l by lia. }
  rewrite (exec_ok_bind (get_command b) _ s1 s1 cnew)
    by (unfold get_command; by rewrite Hnew).
  rewrite (exec_ok_bind (assert_ _ _) _ s1 s1 tt) by done.
  change (exec (bindM (gets next_command) ?k) s1) with (exec (k (next_command s1)) s1).
  change (next_command s1) with (next_command s0). rewrite Hnxt.
  rewrite (exec_ok_bind (ret tt) _ s1 s1 tt) by done.
  change (exec (bindM (modify ?f) ?k) s1) with (exec (k tt) (f s1)); cbv beta.
  set (s3 := with_current _ _ s1).
  change (exec (bindM (gets command) ?k) s3) with (exec (k (command s3)) s3).
  change (command s3) with (command s0). rewrite Hcmd.
  rewrite exec_bind_ret. unfold previous_command_finished.
  change (exec (bindM (gets command) ?k) s3) with (exec (k (command s3)) s3).
  change (command s3) with (command s0). rewrite Hcmd.
  rewrite (exec_ok_bind (ret tt) _ s3 s3 tt) by done.
  change (exec (bindM (gets next_command) ?k) s3) with (exec (k (next_command s3)) s3).
  change (next_command s3) with (Some b). cbv beta.
  change (exec (bindM (modify ?f) ?k) s3) with (exec (k tt) (f s3)); cbv beta iota.
  set (s4 := with_current _ _ s3).
  pose proof (alone_promote b (started s4) s4 s4 (alone_refl b s4 cnew Hnew)) as Hp.
  revert Hp. generalize (exec (result_add_done_callback b (cancel_if_cancelled b);;
                               finished_add_done_callback b previous_command_finished_cb;;
                               _start b) s4).
  intros s5 ([= H1 H2 H3] & Hstl & Hlen & Hoth & (c & Hc & Hact) & Hsnt).
  rewrite Forall_forall in Hdone. rewrite Forall_forall in Hstd.
  rewrite Forall_forall in Hsent.
  split.
  - done.
  - rewrite Hlen. cbn. rewrite length_app. cbn. lia.
  - done.
  - done.
  - by rewrite H3.
  - rewrite Hstl. cbn. by rewrite Hst0.
  - rewrite Hst0, Forall_forall. intros j Hj. rewrite Hb. by apply Hstd.
  - exists c. split; [done|]. by rewrite Hact.
  - intros j c' Hj Hc'. rewrite Hoth, Hlow in Hc' by lia.
    apply Hdone. by eapply list_elem_of_lookup_2.
  - intros i ? ?. lia.
  - done.
  - intros j line [Hin|Hin]%Hsnt; [|lia].
    cbn in Hin. apply list_elem_of_In, Hsent in Hin. cbn in Hin. lia.
Qed.

(** When the first command has finished, the waiting command is started. *)
Lemma overlap_promote (k : nat) (s : Proto) :
  overlap k s -> k <> 1 ->
  let s' := exec previous_command_finished s in
  command s' = Some (b + k - 1) /\ next_command s' = None /\
  started s' = st0 ++ [b; b + k - 1] /\
  (exists c, commands s' !! b = Some c /\ state c = Done) /\
  (exists c, commands s' !! (b + k - 1) = Some c /\ state c = Active) /\
  (forall i line, In (i, line) (sent s') -> i <= b \/ i = b + k - 1).
Proof.
  intros Hs Hk s'. subst s'. pose proof (ov_k _ _ _ _ Hs) as Hk1.
  destruct (overlap_done_first k s Hs) as (c & Hc & Hrun & Hdone).
  destruct (ov_last _ _ _ _ Hs Hk) as (cl & Hcl & Hnew & _).
  unfold previous_command_finished.
  change (exec (bindM (gets command) ?k) s) with (exec (k (command s)) s).
  rewrite (ov_command _ _ _ _ Hs).
  rewrite (exec_ok_bind _ _ _ _ _ Hdone).
  set (s1 := with_commands _ s).
  change (exec (bindM (gets next_command) ?k) s1) with (exec (k (next_command s1)) s1).
  change (next_command s1) with (next_command s). rewrite (ov_next _ _ _ _ Hs).
  destruct (decide (k = 1)); [done|].
  change (exec (bindM (modify ?f) ?k) s1) with (exec (k tt) (f s1)); cbv beta.
  set (s2 := with_current _ _ s1).
  assert (commands s2 !! (b + k - 1) = Some cl) as Hcl2.
  { cbn. rewrite list_lookup_insert_ne by lia. done. }
  pose proof (alone_promote (b + k - 1) (started s2) s2 s2) as Hp.
  rewrite <- Hnew in Hp at 1. specialize (Hp (alone_refl _ s2 cl Hcl2)).
  revert Hp. generalize (exec (result_add_done_callback (b + k - 1)
                                 (cancel_if_cancelled (b + k - 1));;
                               finished_add_done_callback (b + k - 1)
                                 previous_command_finished_cb;;
                               _start (b + k - 1)) s2).
  intros s5 ([= H1 H2 H3] & Hstl & Hlen & Hoth & (c5 & Hc5 & Hact) & Hsnt).
  split_and!.
  - done.
  - done.
  - rewrite Hstl. cbn. rewrite (ov_started _ _ _ _ Hs), <- app_assoc. done.
  - eexists. split.
    + rewrite Hoth by lia. cbn. apply list_lookup_insert_eq. by eapply lookup_lt_Some.
    + done.
  - by exists c5.
  - intros i line [Hin|Hin]%Hsnt; [left|by right].
    by apply (ov_sent _ _ _ _ Hs i line).
Qed.

End Overlap.

End Facts.
End DispatchFacts.
